(** * A-star path planning on a terrain grid: a shallow embedding of
    [pathfinding.py] and the properties of its cost model, search loop and
    path reconstruction. *)

From Stdlib Require Import ZArith List Floats SpecFloat Uint63 Reals Lra Lia.
From stdpp Require Import gmap strings list.

Local Open Scope Z_scope.

(** ** Arithmetic

    The program computes with Python floats and NumPy scalars.  The embedding
    is parametric in the arithmetic: every definition below is written over
    the interface [Arith], which lists exactly the operations the source
    applies to numbers.  Two instances are given: IEEE binary64 (the kernel's
    primitive floats), on which the definitions run, and the real numbers, on
    which the order and field laws hold.

    Heights are stored in single precision (the [f4] field of the grid), and
    the difference of two heights is a single-precision subtraction; its
    result is the exact difference rounded to single precision, written
    [nsingle (nsub a b)].  (Rounding the binary64 difference gives the same
    number: binary64 carries more than twice the digits of binary32.) *)

Class Arith := {
  num : Type;
  nofZ : Z -> num;            (* an integer used as a number *)
  nadd : num -> num -> num;   (* a + b *)
  nsub : num -> num -> num;   (* a - b *)
  nmul : num -> num -> num;   (* a * b *)
  ndiv : num -> num -> num;   (* a / b *)
  nabs : num -> num;          (* abs(a) *)
  nsqrt : num -> num;         (* np.sqrt(a) *)
  nsingle : num -> num;       (* a rounded to single precision (np.float32) *)
  nltb : num -> num -> bool;  (* a < b *)
  neqb : num -> num -> bool   (* a == b *)
}.

(** [a <= b] read as "not [b < a]". *)
Definition nle `{Arith} (a b : num) : Prop := nltb b a = false.

(** A decimal literal [m/d], such as [0.7 = 7/10].  Under binary64 the
    correctly rounded quotient of two small integers is the literal's value. *)
Definition lit `{Arith} (m d : Z) : num := ndiv (nofZ m) (nofZ d).

(** *** Binary64 *)

Definition float_ofZ (z : Z) : float :=
  match z with
  | Z0 => PrimFloat.of_uint63 0%uint63
  | Zpos _ => PrimFloat.of_uint63 (Uint63.of_Z z)
  | Zneg p => PrimFloat.opp (PrimFloat.of_uint63 (Uint63.of_Z (Zpos p)))
  end.

(** The largest finite single-precision number, [(2 - 2^-23) * 2^127]. *)
Definition max_single : float := 0x1.fffffep+127%float.

(** Rounding to binary32, to nearest with ties to even, of a number held as
    a binary64.  Zeros, infinities and NaN are unchanged.  Below [2^-126]
    the single-precision numbers are the multiples of [2^-149]: adding and
    subtracting [2^-97] rounds to them.  From [2^-126] on, the significand in
    [[0.5, 1)] is rounded to 24 digits by adding and subtracting [2^28], and
    a result beyond the largest single-precision number is an infinity. *)
Definition float_single (x : float) : float :=
  let a := PrimFloat.abs x in
  if PrimFloat.ltb a 0x1p-126%float then
    if PrimFloat.eqb a 0%float then x
    else
      let y := PrimFloat.sub (PrimFloat.add a 0x1p-97%float) 0x1p-97%float in
      if PrimFloat.ltb x 0%float then PrimFloat.opp y else y
  else if PrimFloat.ltb a PrimFloat.infinity then
    let '(r, e) := PrimFloat.frshiftexp a in
    let r' := PrimFloat.sub (PrimFloat.add r 0x1p+28%float) 0x1p+28%float in
    let y := PrimFloat.ldshiftexp r' e in
    let y' := if PrimFloat.ltb max_single y then PrimFloat.infinity else y in
    if PrimFloat.ltb x 0%float then PrimFloat.opp y' else y'
  else x.

(** The same rounding by the library's specification of IEEE 754 formats:
    24 digits and exponents up to 128, the result read back as a binary64. *)
Definition single_reference (x : float) : float :=
  match Prim2SF x with
  | S754_finite s m e =>
      match binary_round 24 128 s m e with
      | S754_finite s' m' e' => SF2Prim (binary_round 53 1024 s' m' e')
      | other => SF2Prim other
      end
  | _ => x
  end.

(** Numbers on which the two are compared below: zeros, ties, numbers next
    to ties, the ends of the subnormal and of the normal range, overflows. *)
Definition single_samples : list float :=
  [0; -0; 1; -1; 0x1.999999999999ap-4; -0x1.3333333333333p-2;
   0x1.999999999999ap-3; 0x1.6666666666666p-1; 0x1.8p+0;
   0x1p-150; 0x1.000001p-150; 0x1.8p-149; 0x1p-149; -0x1.8p-149; 0x1.8p-148;
   0x1p-126; 0x1.fffffffffffffp-127; 0x1.fffffep-127; 0x1.ffffffp-127;
   0x1.fffffdp-127; 0x1p-1074; 0x1p-1022;
   max_single; 0x1.ffffffp+127; 0x1.fffffefffffffp+127; -0x1.ffffffp+127;
   0x1p+128; -0x1p+128; 0x1.fffffffffffffp+1023;
   16777217; 16777219; 16777218; 0x1.000001p+0; 0x1.000003p+0;
   0x1.0000010000001p+0; 0x1.000002fffffffp+0; 0x1.fffffffffffffp+0;
   0x1.ffffffp+0; 0x1.fffffefffffffp+0; 0x1.921fb54442d18p+1;
   PrimFloat.infinity; PrimFloat.neg_infinity; PrimFloat.nan]%float.

Definition float_arith : Arith := {|
  num := float;
  nofZ := float_ofZ;
  nadd := PrimFloat.add;
  nsub := PrimFloat.sub;
  nmul := PrimFloat.mul;
  ndiv := PrimFloat.div;
  nabs := PrimFloat.abs;
  nsqrt := PrimFloat.sqrt;
  nsingle := float_single;
  nltb := PrimFloat.ltb;
  neqb := PrimFloat.eqb
|}.

(** *** Real numbers *)

Definition Rltb (a b : R) : bool := if Rlt_dec a b then true else false.
Definition Reqb (a b : R) : bool := if Req_dec_T a b then true else false.

Definition real_arith : Arith := {|
  num := R;
  nofZ := IZR;
  nadd := Rplus;
  nsub := Rminus;
  nmul := Rmult;
  ndiv := Rdiv;
  nabs := Rabs;
  nsqrt := sqrt;
  nsingle := fun a => a;
  nltb := Rltb;
  neqb := Reqb
|}.

(** The laws of an ordered field with square roots that the proofs use.  Over
    the reals nothing is rounded: [nsingle] is the identity there. *)
Class ArithLaws (A : Arith) : Prop := {
  nltb_irrefl : forall a : num, nltb a a = false;
  nltb_trans : forall a b c : num,
      nltb a b = true -> nltb b c = true -> nltb a c = true;
  nltb_cotrans : forall a b c : num,
      nltb a c = true -> nltb a b = true \/ nltb b c = true;
  nofZ_pos : forall z, 0 < z -> nltb (nofZ 0) (nofZ z) = true;
  nadd_mono : forall a c : num, nle (nofZ 0) c -> nle a (nadd a c);
  nadd_nonneg : forall a b : num,
      nle (nofZ 0) a -> nle (nofZ 0) b -> nle (nofZ 0) (nadd a b);
  nmul_nonneg : forall a b : num,
      nle (nofZ 0) a -> nle (nofZ 0) b -> nle (nofZ 0) (nmul a b);
  ndiv_pos : forall a b : num,
      nltb (nofZ 0) a = true -> nltb (nofZ 0) b = true ->
      nltb (nofZ 0) (ndiv a b) = true;
  ndiv_nonneg : forall a b : num,
      nle (nofZ 0) a -> nltb (nofZ 0) b = true -> nle (nofZ 0) (ndiv a b);
  nabs_nonneg : forall a : num, nle (nofZ 0) (nabs a);
  nabs_sub_sym : forall a b : num,
      nabs (nsingle (nsub a b)) = nabs (nsingle (nsub b a));
  nsqrt_nonneg : forall a : num, nle (nofZ 0) (nsqrt a)
}.

(** ** Exceptions

    A Python call either returns or raises.  The two exceptions the program
    can raise are an out-of-range array index and a missing dictionary key. *)

Inductive exn := IndexError | KeyError.

Inductive result (A : Type) : Type :=
| Ok (a : A)
| Raise (e : exn).
Arguments Ok {A} a.
Arguments Raise {A} e.

Definition bind {A B} (r : result A) (k : A -> result B) : result B :=
  match r with
  | Ok a => k a
  | Raise e => Raise e
  end.

Notation "'let*' x ':=' r 'in' k" := (bind r (fun x => k))
  (at level 10, x name, r at level 100, k at level 200).

(** [d[k]] on a dictionary. *)
Definition getitem {A} (o : option A) : result A :=
  match o with
  | Some a => Ok a
  | None => Raise KeyError
  end.

(** ** Constants *)

Definition coord : Type := Z * Z.

Definition GRID_SIZE : Z := 100.
Definition TARGET : coord := (50, 50).

Definition TERRAIN_SPEED `{Arith} (name : string) : option num :=
  if String.eqb name "sand" then Some (lit 7 10)
  else if String.eqb name "mud" then Some (lit 4 10)
  else if String.eqb name "asphalt" then Some (lit 15 10)
  else None.

Definition SLOPE_LIMIT `{Arith} : num := lit 2 10.

Definition terrain_types (t : Z) : option string :=
  if t =? 0 then Some "sand"%string
  else if t =? 1 then Some "mud"%string
  else if t =? 2 then Some "asphalt"%string
  else None.

(** ** The grid

    A grid is a two-dimensional NumPy array of records with fields
    [coordinates] (two 32-bit integers), [terrain] (a 32-bit integer) and
    [height] (stored in single precision; here a number of the arithmetic at
    hand).  It is modelled by its shape and its contents inside the shape. *)

Record Cell `{Arith} := mkCell {
  coordinates : Z * Z;
  terrain : Z;
  height : num
}.

Record Grid `{Arith} := mkGrid {
  nrows : Z;
  ncols : Z;
  cell_at : Z -> Z -> Cell
}.

(** NumPy resolves an index [i] on an axis of length [n]: [0 <= i < n] is
    taken as it is, [-n <= i < 0] counts from the end, anything else raises
    [IndexError]. *)
Definition axis_index (n i : Z) : result Z :=
  if (0 <=? i) && (i <? n) then Ok i
  else if (- n <=? i) && (i <? 0) then Ok (i + n)
  else Raise IndexError.

(** [grid[i, j]] *)
Definition grid_get `{Arith} (g : Grid) (i j : Z) : result Cell :=
  let* i' := axis_index (nrows g) i in
  let* j' := axis_index (ncols g) j in
  Ok (cell_at g i' j').

(** ** The cost model *)

(** Arithmetic on NumPy 32-bit integers wraps around. *)
Definition int32 (z : Z) : Z := (z + 2 ^ 31) mod 2 ^ 32 - 2 ^ 31.

(** [terrain_cost = 1 / TERRAIN_SPEED[terrain_types[neighbor["terrain"]]]] *)
Definition terrain_cost `{Arith} (neighbor : Cell) : result num :=
  let* name := getitem (terrain_types (terrain neighbor)) in
  let* speed := getitem (TERRAIN_SPEED name) in
  Ok (ndiv (nofZ 1) speed).

(** [height_diff = neighbor["height"] - current["height"]] and
    [slope_cost = 1 + abs(height_diff) / SLOPE_LIMIT].  The two heights are
    single-precision scalars, so their difference is rounded to single
    precision; [abs] is exact; the division by the Python float [SLOPE_LIMIT]
    and the addition are carried out in the arithmetic at hand, as NumPy
    promotes a single-precision scalar combined with a Python float to
    double precision (a NumPy that keeps such results in single precision
    rounds these two operations once more). *)
Definition slope_cost `{Arith} (current neighbor : Cell) : num :=
  let height_diff := nsingle (nsub (height neighbor) (height current)) in
  nadd (nofZ 1) (ndiv (nabs height_diff) SLOPE_LIMIT).

(** [distance_cost = np.sqrt((x2 - x1)**2 + (y2 - y1)**2)], on the cells'
    own [coordinates] fields, in 32-bit arithmetic. *)
Definition distance_cost `{Arith} (current neighbor : Cell) : num :=
  let '(x1, y1) := coordinates current in
  let '(x2, y2) := coordinates neighbor in
  nsqrt (nofZ (int32 (int32 (int32 (x2 - x1) ^ 2) + int32 (int32 (y2 - y1) ^ 2)))).

Definition calculate_cost `{Arith} (current neighbor : Cell) (grid : Grid)
  : result num :=
  let* tc := terrain_cost neighbor in
  let sc := slope_cost current neighbor in
  let dc := distance_cost current neighbor in
  Ok (nmul (nmul dc tc) sc).

(** ** The frontier

    [open_set] is a [heapq] heap of tuples [(priority, (x, y))].  Python
    compares tuples item by item: the first pair of items that are not [==]
    decides.  [heappop] returns a least tuple of the heap; the heap is
    modelled by the list of its entries, from which [heappop] removes a least
    one.  Where the comparison is a total order (no NaN priority), the
    sequence of popped coordinates is that of the array-based heap. *)

Definition entry `{Arith} : Type := (num * coord)%type.

Definition coord_ltb (a b : coord) : bool :=
  if a.1 =? b.1 then a.2 <? b.2 else a.1 <? b.1.

Definition entry_ltb `{Arith} (a b : entry) : bool :=
  if neqb a.1 b.1 then coord_ltb a.2 b.2 else nltb a.1 b.1.

Definition heappush `{Arith} (heap : list entry) (e : entry) : list entry :=
  e :: heap.

Fixpoint heappop `{Arith} (heap : list entry) : option (entry * list entry) :=
  match heap with
  | [] => None
  | e :: rest =>
      match heappop rest with
      | None => Some (e, [])
      | Some (m, rest') =>
          if entry_ltb m e then Some (m, e :: rest') else Some (e, rest)
      end
  end.

(** ** The search *)

Record state `{Arith} := mkState {
  open_set : list entry;
  came_from : gmap coord coord;
  cost_so_far : gmap coord num
}.

Definition directions : list (Z * Z) := [(-1, 0); (1, 0); (0, -1); (0, 1)].

(** The bounds test of the loop: [0 <= nx < GRID_SIZE and 0 <= ny < GRID_SIZE]. *)
Definition in_box (nx ny : Z) : bool :=
  (0 <=? nx) && (nx <? GRID_SIZE) && (0 <=? ny) && (ny <? GRID_SIZE).

(** The priority of a neighbour: its cost plus its distance to [TARGET]. *)
Definition priority `{Arith} (new_cost : num) (nx ny : Z) : num :=
  nadd new_cost (nsqrt (nofZ ((TARGET.1 - nx) ^ 2 + (TARGET.2 - ny) ^ 2))).

(** The test [(nx, ny) not in cost_so_far or new_cost < cost_so_far[(nx, ny)]]. *)
Definition improves `{Arith} (cost : gmap coord num) (n : coord) (new_cost : num)
  : bool :=
  match cost !! n with
  | None => true
  | Some old => nltb new_cost old
  end.

(** The body of the [for dx, dy in ...] loop. *)
Definition relax `{Arith} (grid : Grid) (current : coord) (st : state)
    (d : Z * Z) : result state :=
  let '(x, y) := current in
  let nx := x + d.1 in
  let ny := y + d.2 in
  if in_box nx ny then
    let* neighbor := grid_get grid nx ny in
    let* c := getitem (cost_so_far st !! current) in
    let* here := grid_get grid x y in
    let* step := calculate_cost here neighbor grid in
    let new_cost := nadd c step in
    if improves (cost_so_far st) (nx, ny) new_cost then
      Ok {| cost_so_far := <[(nx, ny) := new_cost]> (cost_so_far st);
            open_set := heappush (open_set st) (priority new_cost nx ny, (nx, ny));
            came_from := <[(nx, ny) := current]> (came_from st) |}
    else Ok st
  else Ok st.

Fixpoint for_each {S D} (body : S -> D -> result S) (ds : list D) (st : S)
  : result S :=
  match ds with
  | [] => Ok st
  | d :: ds' => let* st' := body st d in for_each body ds' st'
  end.

Definition answer `{Arith} : Type := (gmap coord coord * gmap coord num)%type.

(** What one evaluation of the [while open_set:] test and body does. *)
Inductive step `{Arith} :=
| Next (st : state)          (* the body ran; the loop goes on *)
| Done (r : result answer).  (* the function returned or raised *)

Definition iteration `{Arith} (grid : Grid) (target : coord) (st : state)
  : step :=
  match heappop (open_set st) with
  | None => Done (Ok (came_from st, cost_so_far st))
  | Some ((_, current), rest) =>
      if decide (current = target) then
        Done (Ok (came_from st, cost_so_far st))
      else
        let popped := {| open_set := rest;
                         came_from := came_from st;
                         cost_so_far := cost_so_far st |} in
        match for_each (relax grid current) directions popped with
        | Ok st' => Next st'
        | Raise e => Done (Raise e)
        end
  end.

(** The [while] loop, with [fuel] bounding the number of evaluations of its
    test; [None] stands for a loop still running when the fuel is spent. *)
Fixpoint search_loop `{Arith} (fuel : nat) (grid : Grid) (target : coord)
    (st : state) : option (result answer) :=
  match fuel with
  | O => None
  | S fuel' =>
      match iteration grid target st with
      | Done r => Some r
      | Next st' => search_loop fuel' grid target st'
      end
  end.

Definition initial `{Arith} (start : coord) : state :=
  {| open_set := heappush [] (nofZ 0, start);
     came_from := ∅;
     cost_so_far := {[ start := nofZ 0 ]} |}.

Definition find_fastest_path `{Arith} (fuel : nat) (grid : Grid)
    (start target : coord) : option (result answer) :=
  search_loop fuel grid target (initial start).

(** ** Path reconstruction *)

Fixpoint reconstruct_loop (fuel : nat) (came_from : gmap coord coord)
    (start current : coord) (path : list coord) : option (result (list coord)) :=
  match fuel with
  | O => None
  | S fuel' =>
      if decide (current = start) then Some (Ok (rev (path ++ [start])))
      else
        match came_from !! current with
        | None => Some (Raise KeyError)
        | Some previous =>
            reconstruct_loop fuel' came_from start previous (path ++ [current])
        end
  end.

Definition reconstruct_path (fuel : nat) (came_from : gmap coord coord)
    (start target : coord) : option (result (list coord)) :=
  reconstruct_loop fuel came_from start target [].

(** ** Definitions used to state the properties *)

(** The Euclidean distance between two coordinates. *)
Definition euclid `{Arith} (a b : coord) : num :=
  nsqrt (nofZ ((b.1 - a.1) ^ 2 + (b.2 - a.2) ^ 2)).

(** The coordinate reached from [c] by following [k] predecessor links. *)
Fixpoint follow (came_from : gmap coord coord) (k : nat) (c : coord)
  : option coord :=
  match k with
  | O => Some c
  | S k' =>
      match came_from !! c with
      | None => None
      | Some previous => follow came_from k' previous
      end
  end.

(** A grid whose cell [(i, j)] records its own coordinates and where every
    cell has the same terrain and height, as [generate_grid] would build it
    from constant choices. *)
Definition uniform_grid `{Arith} (n m : Z) (t : Z) (h : num) : Grid :=
  {| nrows := n;
     ncols := m;
     cell_at := fun i j => {| coordinates := (i, j); terrain := t; height := h |} |}.

(** The cost of walking along [path] from [here]: the sum of the step costs,
    accumulated from [acc] in the order the search adds them. *)
Fixpoint walk_cost `{Arith} (grid : Grid) (acc : num) (here : coord)
    (path : list coord) : result num :=
  match path with
  | [] => Ok acc
  | next :: path' =>
      let* a := grid_get grid here.1 here.2 in
      let* b := grid_get grid next.1 next.2 in
      let* step := calculate_cost a b grid in
      walk_cost grid (nadd acc step) next path'
  end.

(** The grid of the end-to-end example: all asphalt, all heights zero. *)
Definition asphalt_flat (n : Z) : @Grid float_arith :=
  @uniform_grid float_arith n n 2 (float_ofZ 0).


(** A predecessor map with a cycle that does not pass through [(0, 0)]. *)
Definition cyclic_map : gmap coord coord :=
  <[(1, 1) := (2, 2)]> (<[(2, 2) := (1, 1)]> ∅).




(** The state after [k] complete iterations of the loop; [None] when the
    loop has stopped before. *)
Fixpoint run `{Arith} (k : nat) (grid : Grid) (target : coord) (st : state)
  : option state :=
  match k with
  | O => Some st
  | S k' =>
      match iteration grid target st with
      | Next st' => run k' grid target st'
      | Done _ => None
      end
  end.

(** A coordinate inside the shape of the grid. *)
Definition in_bounds `{Arith} (grid : Grid) (c : coord) : Prop :=
  0 <= c.1 < nrows grid /\ 0 <= c.2 < ncols grid.

(** On grids of shape [n] x [m] no run of the search from an in-bounds start
    reads outside the grid: [IndexError] is never raised. *)
Definition accesses_in_bounds (n m : Z) : Prop :=
  forall (A : Arith) (grid : Grid) (start target : coord) (fuel : nat),
    nrows grid = n -> ncols grid = m -> in_bounds grid start ->
    find_fastest_path fuel grid start target <> Some (Raise IndexError).

(** The state a successful [relax] writes. *)
Definition written `{Arith} (st : state) (current n : coord) (new_cost : num)
  : state :=
  {| cost_so_far := <[n := new_cost]> (cost_so_far st);
     open_set := heappush (open_set st) (priority new_cost n.1 n.2, n);
     came_from := <[n := current]> (came_from st) |}.

(** The state once the start has been popped from the initial frontier. *)
Definition start_popped `{Arith} (start : coord) : state :=
  {| open_set := [];
     came_from := ∅;
     cost_so_far := {[ start := nofZ 0 ]} |}.

(** [lowered v' v]: [v'] is [v] after zero or more strict decreases. *)
Definition lowered `{Arith} : num -> num -> Prop :=
  rtc (fun a b => nltb a b = true).

(** Every key of the cost map of [st] is still a key in [st'], with a value
    that is the old one or was lowered. *)
Definition costs_lowered `{Arith} (st st' : state) : Prop :=
  forall c v, cost_so_far st !! c = Some v ->
              exists v', cost_so_far st' !! c = Some v' /\ lowered v' v.

(** ** Definitions used to bound the number of iterations *)

(** The coordinates that pass the bounds test. *)
Definition box_cells : list coord :=
  list_prod (seqZ 0 GRID_SIZE) (seqZ 0 GRID_SIZE).

(** The coordinates a run from [start] can ever pop. *)
Definition nodes (start : coord) : list coord := start :: box_cells.

(** All lists over [V] of length at most [k]. *)
Fixpoint lists_upto (V : list coord) (k : nat) : list (list coord) :=
  match k with
  | O => [[]]
  | S k' => [] :: flat_map (fun p => map (fun v => v :: p) V) (lists_upto V k')
  end.

(** The routes that can carry a recorded cost: the lists without
    repetition over [nodes start] are among them. *)
Definition candidates (start : coord) : list (list coord) :=
  lists_upto (nodes start) (length (nodes start)).

(** The cost the search records for a route, given last coordinate first
    and ending in [start]: step costs are added in the order of travel, with
    the reads and the addition of [relax]. *)
Fixpoint route_cost `{Arith} (grid : Grid) (start : coord) (p : list coord)
  : option num :=
  match p with
  | [] => None
  | n :: rest =>
      match rest with
      | [] => if decide (n = start) then Some (nofZ 0) else None
      | current :: _ =>
          match route_cost grid start rest,
                grid_get grid current.1 current.2,
                grid_get grid n.1 n.2 with
          | Some w, Ok here, Ok neighbor =>
              match calculate_cost here neighbor grid with
              | Ok step => Some (nadd w step)
              | Raise _ => None
              end
          | _, _, _ => None
          end
      end
  end.

(** A route is open for a cost map when it would still improve the entry of
    its last coordinate. *)
Definition open_route `{Arith} (grid : Grid) (start : coord)
    (cost : gmap coord num) (p : list coord) : bool :=
  match p, route_cost grid start p with
  | n :: _, Some w => improves cost n w
  | _, _ => false
  end.

Fixpoint count {X} (f : X -> bool) (l : list X) : nat :=
  match l with
  | [] => O
  | x :: l' => ((if f x then 1 else 0) + count f l')%nat
  end.

(** The quantity that every iteration lowers: the length of the frontier
    plus twice the number of open routes. *)
Definition potential `{Arith} (grid : Grid) (start : coord) (st : state) : nat :=
  (length (open_set st)
   + 2 * count (open_route grid start (cost_so_far st)) (candidates start))%nat.

(** [backed cost p w]: the route [p] has recorded cost [w], leaves the box
    at most at [start], and along it every coordinate has an entry in [cost]
    that is at most the cost of the route up to there. *)
Inductive backed `{Arith} (grid : Grid) (start : coord) (cost : gmap coord num)
  : list coord -> num -> Prop :=
| backed_start (u : num) :
    cost !! start = Some u -> nle u (nofZ 0) ->
    backed grid start cost [start] (nofZ 0)
| backed_step (n current : coord) (rest : list coord) (w step u : num)
    (here neighbor : Cell) :
    backed grid start cost (current :: rest) w ->
    in_box n.1 n.2 = true ->
    grid_get grid current.1 current.2 = Ok here ->
    grid_get grid n.1 n.2 = Ok neighbor ->
    calculate_cost here neighbor grid = Ok step ->
    cost !! n = Some u -> nle u (nadd w step) ->
    backed grid start cost (n :: current :: rest) (nadd w step).

(** Every recorded cost is the cost of a backed route without repetition. *)
Definition costs_backed `{Arith} (grid : Grid) (start : coord)
    (cost : gmap coord num) : Prop :=
  forall n v, cost !! n = Some v ->
              exists rest, backed grid start cost (n :: rest) v
                           /\ NoDup (n :: rest).

(** Every frontier entry lies inside the grid. *)
Definition heap_in_bounds `{Arith} (grid : Grid) (st : state) : Prop :=
  Forall (fun e : entry => in_bounds grid e.2) (open_set st).

(** Every frontier entry has a recorded cost. *)
Definition heap_recorded `{Arith} (st : state) : Prop :=
  Forall (fun e : entry => is_Some (cost_so_far st !! e.2)) (open_set st).

(** ** Definitions used for routes and predecessor chains *)

(** The coordinates met when following [k] predecessor links from [c],
    [c] first. *)
Fixpoint trail (came_from : gmap coord coord) (k : nat) (c : coord)
  : list coord :=
  match k with
  | O => [c]
  | S k' =>
      c :: match came_from !! c with
           | Some previous => trail came_from k' previous
           | None => []
           end
  end.

(** Every element of the list is related to the one after it. *)
Fixpoint linked {X} (R : X -> X -> Prop) (l : list X) : Prop :=
  match l with
  | [] => True
  | a :: l' =>
      match l' with
      | [] => True
      | b :: _ => R a b /\ linked R l'
      end
  end.

(** [b] is the neighbour of [a] in one of the four [directions]. *)
Definition one_step (a b : coord) : Prop :=
  exists d, In d directions /\ b = (a.1 + d.1, a.2 + d.2).

(** ** Definitions used for the invariants of the search *)

(** What the two maps of the search satisfy at every test of the loop:
    the start is recorded at cost zero, no recorded cost is negative, every
    predecessor link goes one step into the box from a coordinate recorded at
    no greater cost, every recorded coordinate but the start has a
    predecessor, and predecessor links lead from every recorded coordinate to
    the start. *)
Record tree_inv `{Arith} (start : coord) (cf : gmap coord coord)
    (cs : gmap coord num) : Prop := mkTreeInv {
  tree_start : cs !! start = Some (nofZ 0);
  tree_nonneg : forall n v, cs !! n = Some v -> nle (nofZ 0) v;
  tree_pred : forall n p,
      cf !! n = Some p ->
      n <> start /\ in_box n.1 n.2 = true /\ one_step p n
      /\ exists cn cp, cs !! n = Some cn /\ cs !! p = Some cp /\ nle cp cn;
  tree_recorded : forall n v, cs !! n = Some v -> n <> start -> is_Some (cf !! n);
  tree_reach : forall n v, cs !! n = Some v ->
                           exists k, follow cf k n = Some start
}.

(** The step from [n] in direction [d] cannot improve the cost map: if it
    leads into the box, both cells can be read, the step has a cost, and the
    neighbour is recorded at no more than the cost of [n] plus that of the
    step. *)
Definition edge_settled `{Arith} (grid : Grid) (cs : gmap coord num)
    (n : coord) (d : Z * Z) : Prop :=
  let m := (n.1 + d.1, n.2 + d.2) in
  in_box m.1 m.2 = true ->
  exists c here neighbor step,
    cs !! n = Some c
    /\ grid_get grid n.1 n.2 = Ok here
    /\ grid_get grid m.1 m.2 = Ok neighbor
    /\ calculate_cost here neighbor grid = Ok step
    /\ improves cs m (nadd c step) = false.

Definition settled `{Arith} (grid : Grid) (cs : gmap coord num) (n : coord)
  : Prop :=
  forall d, In d directions -> edge_settled grid cs n d.

(** [n] has an entry in the frontier. *)
Definition in_frontier `{Arith} (st : state) (n : coord) : Prop :=
  exists prio, In (prio, n) (open_set st).

(** The invariant of the [while] loop. *)
Definition search_inv `{Arith} (grid : Grid) (start : coord) (st : state)
  : Prop :=
  tree_inv start (came_from st) (cost_so_far st)
  /\ heap_recorded st
  /\ forall n v, cost_so_far st !! n = Some v ->
                 in_frontier st n \/ settled grid (cost_so_far st) n.

(** The invariant of the [for] loop that expands [current]. *)
Definition expand_inv `{Arith} (grid : Grid) (start current : coord)
    (st : state) : Prop :=
  tree_inv start (came_from st) (cost_so_far st)
  /\ (heap_recorded st /\ is_Some (cost_so_far st !! current))
  /\ forall n v, cost_so_far st !! n = Some v ->
                 n = current \/ in_frontier st n
                 \/ settled grid (cost_so_far st) n.

(** The grid and the fuel of the examples over the reals: side [GRID_SIZE],
    asphalt, flat. *)
Definition real_flat : @Grid real_arith :=
  @uniform_grid real_arith GRID_SIZE GRID_SIZE 2 (IZR 0).

Definition ample (start : coord) : nat :=
  (2 + 2 * length (candidates start))%nat.

(** ** Grid generation

    [generate_grid] allocates a zero-filled square array and fills it cell by
    cell from two random draws per cell.  The draws are parameters of the
    model, indexed by the cell they are made for: [choice_draw x y] selects
    the position in [[0, 1, 2]] that [np.random.choice] returns, and
    [uniform_draw x y] is the value of [np.random.uniform(-SLOPE_LIMIT,
    SLOPE_LIMIT)].  [to_single] is the rounding of the height when it is
    stored in its single-precision field.

    Memory is not modelled: [zeros] stands for an allocation that succeeded,
    whereas [np.zeros] raises [MemoryError] when the array does not fit.
    The two loops are therefore a function of their own, [fill_grid], on the
    array they are given, and [generate_grid] runs it on [zeros]. *)

Inductive generated `{Arith} :=
| Generated (grid : Grid)
| GenValueError        (* np.zeros: negative dimensions are not allowed *)
| GenRaise (e : exn).

(** [grid[i, j] = cell] *)
Definition grid_set `{Arith} (g : Grid) (i j : Z) (cell : Cell) : result Grid :=
  let* i' := axis_index (nrows g) i in
  let* j' := axis_index (ncols g) j in
  Ok {| nrows := nrows g;
        ncols := ncols g;
        cell_at := fun a b =>
          if decide (a = i' /\ b = j') then cell else cell_at g a b |}.

(** The array that [np.zeros((n, m), dtype=...)] returns when it returns
    one, for sides that are not negative. *)
Definition zeros `{Arith} (n m : Z) : Grid :=
  {| nrows := n;
     ncols := m;
     cell_at := fun _ _ =>
       {| coordinates := (0, 0); terrain := 0; height := nofZ 0 |} |}.

(** The element of [l] that [np.random.choice(l)] returns on draw [r]. *)
Definition random_choice (l : list Z) (r : nat) : Z :=
  nth (r mod length l) l 0.

Section Generate.
Context `{Arith}.
Variable to_single : num -> num.
Variable choice_draw : Z -> Z -> nat.
Variable uniform_draw : Z -> Z -> num.

(** The record that the loop body stores at [(x, y)]. *)
Definition generated_cell (grid_size x y : Z) : Cell :=
  let terrain := random_choice [0; 1; 2] (choice_draw x y) in
  let height :=
    ndiv (nmul (uniform_draw x y) (nofZ (x + y))) (nofZ (grid_size * 2)) in
  {| coordinates := (int32 x, int32 y);
     terrain := terrain;
     height := to_single height |}.

Definition generate_row (grid_size x : Z) (g : Grid) : result Grid :=
  for_each (fun g y => grid_set g x y (generated_cell grid_size x y))
           (seqZ 0 grid_size) g.

(** The two nested [for] loops, on the array [g]. *)
Definition fill_grid (grid_size : Z) (g : Grid) : result Grid :=
  for_each (fun g x => generate_row grid_size x g) (seqZ 0 grid_size) g.

Definition generate_grid (grid_size : Z) : generated :=
  if grid_size <? 0 then GenValueError
  else
    match fill_grid grid_size (zeros grid_size grid_size) with
    | Ok g => Generated g
    | Raise e => GenRaise e
    end.

End Generate.


(** Cell [(a, b)] of [g] holds the record generated for it. *)
Definition holds_generated `{Arith} (to_single : num -> num)
    (choice_draw : Z -> Z -> nat) (uniform_draw : Z -> Z -> num)
    (n a b : Z) (g : Grid) : Prop :=
  cell_at g a b = generated_cell to_single choice_draw uniform_draw n a b.

(** Adding the same number on the right keeps the order. *)
Definition nadd_mono_left (A : Arith) : Prop :=
  forall a b c : num, nle a b -> nle (nadd a c) (nadd b c).

(** Every predecessor link is paid for: both its cells can be read, the step
    has a cost, and the coordinate is recorded at no less than the recorded
    cost of its predecessor plus the cost of the step. *)
Definition links_paid `{Arith} (grid : Grid) (cf : gmap coord coord)
    (cs : gmap coord num) : Prop :=
  forall n p,
    cf !! n = Some p ->
    exists here neighbor step cn cp,
      grid_get grid p.1 p.2 = Ok here
      /\ grid_get grid n.1 n.2 = Ok neighbor
      /\ calculate_cost here neighbor grid = Ok step
      /\ cs !! n = Some cn /\ cs !! p = Some cp
      /\ nle (nadd cp step) cn.

(** * Properties *)

(** ** The real numbers satisfy the laws *)

Lemma Rltb_true (a b : R) : Rltb a b = true <-> (a < b)%R.
Proof. unfold Rltb. destruct (Rlt_dec a b); split; intros; try easy. Qed.

Lemma Rltb_false (a b : R) : Rltb a b = false <-> (b <= a)%R.
Proof.
  unfold Rltb. destruct (Rlt_dec a b); split; intros; try easy; lra.
Qed.

Lemma real_laws : ArithLaws real_arith.
Proof.
  split; unfold nle; simpl.
  - intros a. apply Rltb_false. lra.
  - intros a b c. rewrite !Rltb_true. lra.
  - intros a b c. rewrite !Rltb_true. intros Hac.
    destruct (Rlt_dec a b); [left | right]; lra.
  - intros z Hz. apply Rltb_true. now apply IZR_lt.
  - intros a c. rewrite !Rltb_false. lra.
  - intros a b. rewrite !Rltb_false. lra.
  - intros a b. rewrite !Rltb_false. apply Rmult_le_pos.
  - intros a b. rewrite !Rltb_true. apply Rdiv_lt_0_compat.
  - intros a b. rewrite Rltb_true, !Rltb_false. intros Ha Hb.
    apply Rmult_le_pos; [exact Ha |]. left. now apply Rinv_0_lt_compat.
  - intros a. apply Rltb_false. apply Rabs_pos.
  - intros a b. apply Rabs_minus_sym.
  - intros a. apply Rltb_false. apply sqrt_pos.
Qed.

(** ** Rounding to single precision *)

(** [float_single] agrees with the library's binary32 rounding on the
    samples. *)
Lemma float_single_samples :
  forallb (fun x => PrimFloat.Leibniz.eqb (float_single x) (single_reference x))
          single_samples = true.
Proof. vm_compute. reflexivity. Qed.

(** ** The self path *)

Lemma iteration_initial_self `{Arith} (grid : Grid) (s : coord) :
  iteration grid s (initial s) = Done (Ok (∅, {[ s := nofZ 0 ]})).
Proof.
  unfold iteration, initial, heappush. simpl.
  destruct (decide (s = s)) as [_ | Hne]; [reflexivity | congruence].
Qed.

(** C7: for every grid and coordinate [s], the search from [s] to [s]
    returns at the first test of the loop with an empty predecessor map and
    the cost map [{s: 0}], and path reconstruction on that result yields the
    one-element path [[s]]. *)
Theorem self_path `{Arith} (grid : Grid) (s : coord) (fuel fuel' : nat) :
  find_fastest_path (S fuel) grid s s = Some (Ok (∅, {[ s := nofZ 0 ]}))
  /\ reconstruct_path (S fuel') ∅ s s = Some (Ok [s])
  /\ ({[ s := nofZ 0 ]} : gmap coord num) !! s = Some (nofZ 0).
Proof.
  split; [| split].
  - unfold find_fastest_path. simpl. now rewrite iteration_initial_self.
  - unfold reconstruct_path. simpl.
    destruct (decide (s = s)) as [_ | Hne]; [reflexivity | congruence].
  - apply lookup_singleton_eq.
Qed.

(** ** Path reconstruction without a route *)

Section Reconstruct.
Variable came_from : gmap coord coord.
Variable start : coord.

Lemma follow_S_inv k c previous :
  came_from !! c = Some previous ->
  follow came_from (S k) c = follow came_from k previous.
Proof. intros Hc. simpl. now rewrite Hc. Qed.

(** A chain that stops at a coordinate without a predecessor, start not
    met on the way: the lookup [came_from[current]] raises. *)
Lemma reconstruct_loop_dead_end k :
  forall current c path fuel,
    follow came_from k current = Some c ->
    (forall j c', (j <= k)%nat -> follow came_from j current = Some c' ->
                  c' <> start) ->
    came_from !! c = None ->
    (k < fuel)%nat ->
    reconstruct_loop fuel came_from start current path = Some (Raise KeyError).
Proof.
  induction k as [| k IH]; intros current c path fuel Hf Hns Hc Hfuel.
  - simpl in Hf. injection Hf as ->.
    destruct fuel as [| fuel]; [lia |]. simpl.
    destruct (decide (c = start)) as [Heq | _].
    + exfalso. now apply (Hns O c).
    + now rewrite Hc.
  - destruct fuel as [| fuel]; [lia |]. simpl.
    destruct (decide (current = start)) as [Heq | _].
    + exfalso. apply (Hns O current); [lia | reflexivity | exact Heq].
    + simpl in Hf. destruct (came_from !! current) as [previous |] eqn:Hp;
        [| discriminate].
      apply (IH previous c); [exact Hf | | exact Hc | lia].
      intros j c' Hj Hfj. apply (Hns (S j) c'); [lia |].
      now rewrite (follow_S_inv _ _ _ Hp).
Qed.

(** A chain that never stops and never meets start: the loop runs on. *)
Lemma reconstruct_loop_endless fuel :
  forall current path,
    (forall k, exists c, follow came_from k current = Some c /\ c <> start) ->
    reconstruct_loop fuel came_from start current path = None.
Proof.
  induction fuel as [| fuel IH]; intros current path Hch; [reflexivity |].
  simpl. destruct (decide (current = start)) as [Heq | _].
  - destruct (Hch O) as (c & Hc & Hne). simpl in Hc. congruence.
  - destruct (came_from !! current) as [previous |] eqn:Hp.
    + apply IH. intros k. destruct (Hch (S k)) as (c & Hc & Hne).
      exists c. split; [| exact Hne].
      now rewrite (follow_S_inv _ _ _ Hp) in Hc.
    + destruct (Hch 1%nat) as (c & Hc & _). simpl in Hc.
      rewrite Hp in Hc. discriminate.
Qed.

(** Without a chain to start the loop never returns a path. *)
Lemma reconstruct_loop_no_path fuel :
  forall current path,
    (forall k c, follow came_from k current = Some c -> c <> start) ->
    reconstruct_loop fuel came_from start current path = None
    \/ reconstruct_loop fuel came_from start current path
       = Some (Raise KeyError).
Proof.
  induction fuel as [| fuel IH]; intros current path Hns; [now left |].
  simpl. destruct (decide (current = start)) as [Heq | _].
  - exfalso. now apply (Hns O current).
  - destruct (came_from !! current) as [previous |] eqn:Hp; [| now right].
    apply IH. intros k c Hk. apply (Hns (S k) c).
    now rewrite (follow_S_inv _ _ _ Hp).
Qed.
End Reconstruct.

Lemma follow_cyclic_map k :
  (follow cyclic_map k (1, 1) = Some (1, 1)
   \/ follow cyclic_map k (1, 1) = Some (2, 2))
  /\ (follow cyclic_map k (2, 2) = Some (1, 1)
      \/ follow cyclic_map k (2, 2) = Some (2, 2)).
Proof.
  induction k as [| k [IH1 IH2]]; [simpl; auto |].
  assert (H1 : cyclic_map !! ((1, 1) : coord) = Some (2, 2)) by reflexivity.
  assert (H2 : cyclic_map !! ((2, 2) : coord) = Some (1, 1)) by reflexivity.
  rewrite (follow_S_inv _ _ _ _ H1), (follow_S_inv _ _ _ _ H2). auto.
Qed.

(** C2, as amended: when following predecessors from [target] never reaches
    [start], [reconstruct_path] never returns a path.  If the chain stops at
    a coordinate without a predecessor, the dictionary lookup raises
    [KeyError] there; if the chain never stops (a cycle), the loop does not
    end, whatever the fuel. *)
Theorem reconstruct_path_no_route (came_from : gmap coord coord)
    (start target : coord) :
  (forall k c, follow came_from k target = Some c -> c <> start) ->
  (forall fuel,
      reconstruct_path fuel came_from start target = None
      \/ reconstruct_path fuel came_from start target = Some (Raise KeyError))
  /\ (forall k c fuel,
         follow came_from k target = Some c -> came_from !! c = None ->
         (k < fuel)%nat ->
         reconstruct_path fuel came_from start target = Some (Raise KeyError))
  /\ ((forall k, is_Some (follow came_from k target)) ->
      forall fuel, reconstruct_path fuel came_from start target = None).
Proof.
  intros Hns. unfold reconstruct_path. split; [| split].
  - intros fuel. now apply reconstruct_loop_no_path.
  - intros k c fuel Hk Hc Hfuel.
    apply (reconstruct_loop_dead_end came_from start k target c); auto.
    intros j c' _ Hj. now apply (Hns j).
  - intros Hall fuel. apply reconstruct_loop_endless.
    intros k. destruct (Hall k) as [c Hc]. exists c. split; [exact Hc |].
    now apply (Hns k).
Qed.

Lemma reconstruct_path_no_route_witness :
  reconstruct_path 5 ∅ (0, 0) (1, 1) = Some (Raise KeyError).
Proof.
  refine (proj1 (proj2 (reconstruct_path_no_route ∅ (0, 0) (1, 1) _))
            O (1, 1) 5%nat eq_refl _ _).
  - intros [| k] c Hk; simpl in Hk.
    + injection Hk as <-. discriminate.
    + rewrite lookup_empty in Hk. discriminate.
  - apply lookup_empty.
  - lia.
Defined.

(** C2 fails on a cyclic predecessor map: the loop of [reconstruct_path]
    neither reports a missing route nor stops. *)
Lemma reconstruct_path_cycle_runs_forever :
  reconstruct_path 1000 cyclic_map (0, 0) (1, 1) = None
  /\ forall fuel, reconstruct_path fuel cyclic_map (0, 0) (1, 1) = None.
Proof.
  assert (H : forall fuel, reconstruct_path fuel cyclic_map (0, 0) (1, 1) = None).
  { intros fuel. apply reconstruct_loop_endless. intros k.
    destruct (follow_cyclic_map k) as [[H | H] _]; rewrite H;
      eexists; (split; [reflexivity | discriminate]). }
  split; [apply H | exact H].
Qed.

(** ** Runs on concrete grids, in binary64 *)

Section Binary64.
#[local] Existing Instance float_arith.

(** The quotients standing for the decimal literals of the source are the
    binary64 values of those literals. *)
#[local] Set Warnings "-inexact-float".
Lemma float_literals :
  lit 7 10 = 0.7%float /\ lit 4 10 = 0.4%float
  /\ lit 15 10 = 1.5%float /\ lit 2 10 = 0.2%float.
Proof. repeat split; vm_compute; reflexivity. Qed.

(** C1 fails on the code: with the flat asphalt grid of side 100, start
    [(0, 0)] and target [(2, 2)], the first iteration pushes the neighbours
    [(0, 1)] and [(1, 0)] with priority "cost plus distance to [TARGET]",
    which is [(50, 50)], and that priority is larger than "cost plus distance
    to the target of the call". *)
Theorem pushed_priority_measures_to_TARGET :
  match iteration (asphalt_flat 100) (2, 2) (initial (0, 0)) with
  | Next st' =>
      exists c1 c2 : float,
        cost_so_far st' !! ((0, 1) : coord) = Some c1
        /\ cost_so_far st' !! ((1, 0) : coord) = Some c2
        /\ open_set st' = [(nadd c1 (euclid (0, 1) TARGET), (0, 1));
                           (nadd c2 (euclid (1, 0) TARGET), (1, 0))]
        /\ nltb (nadd c1 (euclid (0, 1) (2, 2))) (nadd c1 (euclid (0, 1) TARGET))
           = true
        /\ nltb (nadd c2 (euclid (1, 0) (2, 2))) (nadd c2 (euclid (1, 0) TARGET))
           = true
  | Done _ => False
  end.
Proof.
  vm_compute. do 2 eexists. repeat split; reflexivity.
Qed.

(** C4 fails on the code: on the 3 x 3 grid the bounds test still lets the
    neighbour [(1, 3)] through, and reading it raises [IndexError]. *)
Lemma small_grid_raises_IndexError :
  find_fastest_path 100 (asphalt_flat 3) (0, 0) (2, 2) = Some (Raise IndexError).
Proof. vm_compute. reflexivity. Qed.

(** C4, as amended: on the flat asphalt grid of side [GRID_SIZE], the search
    from [(0, 0)] to [(2, 2)] followed by path reconstruction returns a route
    of four axis-aligned steps whose recorded cost, and whose summed step
    costs, are exactly [4 * (1 / 1.5)]. *)
Theorem flat_asphalt_example :
  exists cf cs,
    find_fastest_path 100 (asphalt_flat GRID_SIZE) (0, 0) (2, 2) = Some (Ok (cf, cs))
    /\ reconstruct_path 100 cf (0, 0) (2, 2)
       = Some (Ok [(0, 0); (0, 1); (1, 1); (1, 2); (2, 2)])
    /\ cs !! ((2, 2) : coord) = Some (nmul (nofZ 4) (ndiv (nofZ 1) (lit 15 10)))
    /\ walk_cost (asphalt_flat GRID_SIZE) (nofZ 0) (0, 0)
         [(0, 1); (1, 1); (1, 2); (2, 2)]
       = Ok (nmul (nofZ 4) (ndiv (nofZ 1) (lit 15 10))).
Proof.
  do 2 eexists. split; [vm_compute; reflexivity |].
  repeat split; vm_compute; reflexivity.
Qed.

(** C9 fails on the code: a start far outside the grid is not rejected; the
    search returns normally. *)
Lemma outside_start_is_not_rejected :
  find_fastest_path 10 (asphalt_flat 100) (200, 200) (50, 50)
  = Some (Ok (∅, {[ (200, 200) := nofZ 0 ]})).
Proof. vm_compute. reflexivity. Qed.

End Binary64.

(** ** The cost model *)

Section CostModel.
Context {A : Arith} {L : ArithLaws A}.

Lemma nle_refl (a : num) : nle a a.
Proof. apply nltb_irrefl. Qed.

Lemma nltb_nle (a b : num) : nltb a b = true -> nle a b.
Proof.
  intros Hab. unfold nle. destruct (nltb b a) eqn:Hba; [| reflexivity].
  rewrite <- (nltb_irrefl a). symmetry. now apply (nltb_trans a b a).
Qed.

Lemma nle_trans (a b c : num) : nle a b -> nle b c -> nle a c.
Proof.
  unfold nle. intros Hab Hbc. destruct (nltb c a) eqn:Hca; [| reflexivity].
  destruct (nltb_cotrans c b a Hca) as [H | H]; congruence.
Qed.

Lemma nltb_nle_trans (a b c : num) :
  nltb a b = true -> nle b c -> nltb a c = true.
Proof.
  unfold nle. intros Hab Hbc.
  destruct (nltb_cotrans a c b Hab) as [H | H]; congruence.
Qed.

Lemma nle_nltb_trans (a b c : num) :
  nle a b -> nltb b c = true -> nltb a c = true.
Proof.
  unfold nle. intros Hab Hbc.
  destruct (nltb_cotrans b a c Hbc) as [H | H]; congruence.
Qed.

Lemma lit_pos (m d : Z) : 0 < m -> 0 < d -> nltb (nofZ 0) (lit m d) = true.
Proof. intros Hm Hd. apply ndiv_pos; now apply nofZ_pos. Qed.

Lemma one_nonneg : nle (nofZ 0) (nofZ 1).
Proof. apply nltb_nle, nofZ_pos. lia. Qed.

Lemma SLOPE_LIMIT_pos : nltb (nofZ 0) SLOPE_LIMIT = true.
Proof. apply lit_pos; lia. Qed.



Lemma slope_cost_nonneg (current neighbor : Cell) :
  nle (nofZ 0) (slope_cost current neighbor).
Proof.
  unfold slope_cost. apply nadd_nonneg; [apply one_nonneg |].
  apply ndiv_nonneg; [apply nabs_nonneg | apply SLOPE_LIMIT_pos].
Qed.

(** With a known terrain the step cost is defined and not negative. *)
Lemma calculate_cost_nonneg (current neighbor : Cell) (grid : Grid) (c : num) :
  calculate_cost current neighbor grid = Ok c -> nle (nofZ 0) c.
Proof.
  unfold calculate_cost, terrain_cost. intros Hc.
  destruct (terrain_types (terrain neighbor)) as [name |]; [| discriminate].
  simpl in Hc.
  destruct (TERRAIN_SPEED name) as [speed |] eqn:Hs; [| discriminate].
  simpl in Hc. injection Hc as <-.
  assert (Hpos : nltb (nofZ 0) speed = true).
  { unfold TERRAIN_SPEED in Hs.
    repeat (destruct (String.eqb name _) in Hs;
            [injection Hs as <-; apply lit_pos; lia |]).
    discriminate. }
  apply nmul_nonneg; [| apply slope_cost_nonneg].
  apply nmul_nonneg.
  - unfold distance_cost.
    destruct (coordinates current), (coordinates neighbor). apply nsqrt_nonneg.
  - apply ndiv_nonneg; [apply one_nonneg | exact Hpos].
Qed.


End CostModel.



Section RealWitnesses.
#[local] Existing Instance real_arith.


End RealWitnesses.

Section Overflow.
#[local] Existing Instance float_arith.


End Overflow.



(** ** The structure of one iteration *)

Section Iteration.
Context {A : Arith}.

Lemma heappop_None (heap : list entry) : heappop heap = None -> heap = [].
Proof.
  destruct heap as [| e rest]; [reflexivity |]. simpl.
  destruct (heappop rest) as [[m rest'] |]; [| discriminate].
  destruct (entry_ltb m e); discriminate.
Qed.

(** [heappop] takes one entry out of the heap and keeps the others. *)
Lemma heappop_Permutation (heap : list entry) :
  forall e rest, heappop heap = Some (e, rest) -> heap ≡ₚ e :: rest.
Proof.
  induction heap as [| a heap IH]; intros e rest Hpop; [discriminate |].
  simpl in Hpop. destruct (heappop heap) as [[m rest'] |] eqn:Hm.
  - destruct (entry_ltb m a); injection Hpop as <- <-.
    + rewrite (IH m rest' eq_refl). apply Permutation_swap.
    + reflexivity.
  - injection Hpop as <- <-. now rewrite (heappop_None _ Hm).
Qed.

Lemma heappop_length (heap : list entry) e rest :
  heappop heap = Some (e, rest) -> length heap = S (length rest).
Proof. intros Hpop. now rewrite (heappop_Permutation _ _ _ Hpop). Qed.

Lemma bind_Ok_inv {X Y} (r : result X) (k : X -> result Y) (y : Y) :
  bind r k = Ok y -> exists x, r = Ok x /\ k x = Ok y.
Proof. destruct r as [x | e]; simpl; [eauto | discriminate]. Qed.

Lemma bind_Raise_inv {X Y} (r : result X) (k : X -> result Y) (e : exn) :
  bind r k = Raise e -> r = Raise e \/ exists x, r = Ok x /\ k x = Raise e.
Proof. destruct r as [x | e']; simpl; [eauto | intros [= <-]; now left]. Qed.

Lemma getitem_Ok_inv {X} (o : option X) (x : X) : getitem o = Ok x -> o = Some x.
Proof. destruct o; simpl; congruence. Qed.

Lemma getitem_Raise_inv {X} (o : option X) (e : exn) :
  getitem o = Raise e -> o = None /\ e = KeyError.
Proof. destruct o; simpl; [discriminate | intros [= <-]; now split]. Qed.

(** What a returning [relax] has done: nothing, or one write. *)
Lemma relax_inv (grid : Grid) (current : coord) (st st' : state) (d : Z * Z) :
  relax grid current st d = Ok st' ->
  st' = st
  \/ exists neighbor here c step,
      let n := (current.1 + d.1, current.2 + d.2) in
      in_box n.1 n.2 = true
      /\ grid_get grid n.1 n.2 = Ok neighbor
      /\ cost_so_far st !! current = Some c
      /\ grid_get grid current.1 current.2 = Ok here
      /\ calculate_cost here neighbor grid = Ok step
      /\ improves (cost_so_far st) n (nadd c step) = true
      /\ st' = written st current n (nadd c step).
Proof.
  unfold relax. destruct current as [x y]. cbn [fst snd]. intros H.
  destruct (in_box (x + d.1) (y + d.2)) eqn:Hbox;
    [| injection H as <-; now left].
  apply bind_Ok_inv in H as (neighbor & Hn & H).
  apply bind_Ok_inv in H as (c & Hc & H). apply getitem_Ok_inv in Hc.
  apply bind_Ok_inv in H as (here & Hh & H).
  apply bind_Ok_inv in H as (step & Hs & H).
  destruct (improves (cost_so_far st) (x + d.1, y + d.2) (nadd c step))
    eqn:Himp; injection H as <-; [right | now left].
  exists neighbor, here, c, step. repeat split; assumption.
Qed.

(** [relax] raises only when one of its four fallible reads does. *)
Lemma relax_raise (grid : Grid) (current : coord) (st : state) (d : Z * Z) e :
  relax grid current st d = Raise e ->
  let n := (current.1 + d.1, current.2 + d.2) in
  in_box n.1 n.2 = true
  /\ (grid_get grid n.1 n.2 = Raise e
      \/ (cost_so_far st !! current = None /\ e = KeyError)
      \/ grid_get grid current.1 current.2 = Raise e
      \/ exists here neighbor,
          grid_get grid n.1 n.2 = Ok neighbor
          /\ grid_get grid current.1 current.2 = Ok here
          /\ calculate_cost here neighbor grid = Raise e).
Proof.
  unfold relax. destruct current as [x y]. cbn [fst snd]. intros H.
  destruct (in_box (x + d.1) (y + d.2)) eqn:Hbox; [| discriminate].
  split; [reflexivity |].
  apply bind_Raise_inv in H as [H | (neighbor & Hn & H)]; [now left |].
  apply bind_Raise_inv in H as [H | (c & Hc & H)];
    [right; left; now apply getitem_Raise_inv |].
  apply bind_Raise_inv in H as [H | (here & Hh & H)]; [right; right; now left |].
  apply bind_Raise_inv in H as [H | (step & Hs & H)].
  - right; right; right. now exists here, neighbor.
  - destruct (improves _ _ _); discriminate.
Qed.

Lemma grid_get_in_bounds (grid : Grid) (i j : Z) :
  0 <= i < nrows grid -> 0 <= j < ncols grid ->
  grid_get grid i j = Ok (cell_at grid i j).
Proof.
  intros Hi Hj. unfold grid_get, axis_index.
  replace ((0 <=? i) && (i <? nrows grid)) with true by (symmetry; lia).
  simpl.
  replace ((0 <=? j) && (j <? ncols grid)) with true by (symmetry; lia).
  reflexivity.
Qed.

Lemma grid_get_beyond_rows (grid : Grid) (j : Z) :
  0 <= nrows grid -> grid_get grid (nrows grid) j = Raise IndexError.
Proof.
  intros Hn. unfold grid_get, axis_index.
  replace ((0 <=? nrows grid) && (nrows grid <? nrows grid)) with false
    by (symmetry; lia).
  replace ((- nrows grid <=? nrows grid) && (nrows grid <? 0)) with false
    by (symmetry; lia).
  reflexivity.
Qed.

Lemma grid_get_beyond_cols (grid : Grid) (i : Z) :
  0 <= ncols grid -> 0 <= i < nrows grid ->
  grid_get grid i (ncols grid) = Raise IndexError.
Proof.
  intros Hm Hi. unfold grid_get, axis_index.
  replace ((0 <=? i) && (i <? nrows grid)) with true by (symmetry; lia).
  simpl.
  replace ((0 <=? ncols grid) && (ncols grid <? ncols grid)) with false
    by (symmetry; lia).
  replace ((- ncols grid <=? ncols grid) && (ncols grid <? 0)) with false
    by (symmetry; lia).
  reflexivity.
Qed.

End Iteration.

(** ** Reasoning about the [for] loop *)

Lemma for_each_Ok_ind {S D} (P : S -> Prop) (body : S -> D -> result S)
    (ds : list D) :
  (forall st d st', P st -> body st d = Ok st' -> P st') ->
  forall st st', P st -> for_each body ds st = Ok st' -> P st'.
Proof.
  intros Hbody. induction ds as [| d ds IH]; intros st st' HP Hrun; simpl in Hrun.
  - now injection Hrun as <-.
  - apply bind_Ok_inv in Hrun as (st1 & H1 & Hrun).
    apply (IH st1); [now apply (Hbody st d) | exact Hrun].
Qed.

Lemma for_each_Raise_inv {S D} (P : S -> Prop) (body : S -> D -> result S)
    (ds : list D) (e : exn) :
  (forall st d st', P st -> body st d = Ok st' -> P st') ->
  forall st, P st -> for_each body ds st = Raise e ->
             exists st1 d, P st1 /\ body st1 d = Raise e.
Proof.
  intros Hbody. induction ds as [| d ds IH]; intros st HP Hrun; simpl in Hrun;
    [discriminate |].
  apply bind_Raise_inv in Hrun as [H | (st1 & H1 & Hrun)].
  - now exists st, d.
  - apply (IH st1); [now apply (Hbody st d) | exact Hrun].
Qed.

(** ** Grid accesses stay in bounds on grids that cover the box *)

Section Bounds.
Context {A : Arith}.
Variable grid : Grid.
Hypothesis rows_cover : GRID_SIZE <= nrows grid.
Hypothesis cols_cover : GRID_SIZE <= ncols grid.

Lemma in_box_in_bounds (nx ny : Z) :
  in_box nx ny = true -> in_bounds grid (nx, ny).
Proof. unfold in_box, in_bounds. simpl. lia. Qed.

Lemma calculate_cost_raise (here neighbor : Cell) (g : Grid) (e : exn) :
  calculate_cost here neighbor g = Raise e -> e = KeyError.
Proof.
  unfold calculate_cost, terrain_cost. intros H.
  apply bind_Raise_inv in H as [H | (tc & _ & H)]; [| discriminate].
  apply bind_Raise_inv in H as [H | (name & _ & H)];
    [now apply getitem_Raise_inv in H |].
  apply bind_Raise_inv in H as [H | (speed & _ & H)];
    [now apply getitem_Raise_inv in H | discriminate].
Qed.

Lemma relax_heap_in_bounds (current : coord) (st st' : state) (d : Z * Z) :
  heap_in_bounds grid st -> relax grid current st d = Ok st' ->
  heap_in_bounds grid st'.
Proof.
  intros Hst Hrelax.
  apply relax_inv in Hrelax as [-> | (nb & here & c & step & Hbox & _ & _ & _ & _ & _ & ->)];
    [exact Hst |].
  unfold heap_in_bounds, written, heappush. simpl.
  constructor; [| exact Hst]. simpl. now apply in_box_in_bounds.
Qed.

Lemma relax_no_IndexError (current : coord) (st : state) (d : Z * Z) :
  in_bounds grid current -> relax grid current st d <> Raise IndexError.
Proof.
  intros Hcur Hrelax.
  apply relax_raise in Hrelax as [Hbox Hcases].
  apply in_box_in_bounds in Hbox. destruct Hbox as [Hx Hy]. destruct Hcur as [Hcx Hcy].
  simpl in *.
  destruct Hcases as [H | [[_ H] | [H | (here & nb & _ & _ & H)]]].
  - rewrite grid_get_in_bounds in H by assumption. discriminate.
  - discriminate.
  - rewrite grid_get_in_bounds in H by assumption. discriminate.
  - apply calculate_cost_raise in H. discriminate.
Qed.

Lemma iteration_in_bounds (target : coord) (st : state) :
  heap_in_bounds grid st ->
  match iteration grid target st with
  | Next st' => heap_in_bounds grid st'
  | Done r => r <> Raise IndexError
  end.
Proof.
  intros Hst. unfold iteration.
  destruct (heappop (open_set st)) as [[[prio current] rest] |] eqn:Hpop;
    [| discriminate].
  destruct (decide (current = target)); [discriminate |].
  apply heappop_Permutation in Hpop.
  unfold heap_in_bounds in Hst. rewrite Hpop in Hst.
  apply Forall_cons in Hst as [Hcur Hrest]. simpl in Hcur.
  set (popped := {| open_set := rest |}).
  assert (Hpopped : heap_in_bounds grid popped) by exact Hrest.
  destruct (for_each (relax grid current) directions popped) as [st' | e] eqn:Hfor.
  - apply (for_each_Ok_ind (heap_in_bounds grid) _ _
             (fun s d s' => relax_heap_in_bounds current s s' d) _ _ Hpopped Hfor).
  - intros [= ->].
    destruct (for_each_Raise_inv (heap_in_bounds grid) _ _ _
                (fun s d s' => relax_heap_in_bounds current s s' d) _ Hpopped Hfor)
      as (st1 & d & _ & Hraise).
    now apply (relax_no_IndexError current st1 d).
Qed.

Lemma search_loop_in_bounds (target : coord) (fuel : nat) :
  forall st, heap_in_bounds grid st ->
             search_loop fuel grid target st <> Some (Raise IndexError).
Proof.
  induction fuel as [| fuel IH]; intros st Hst; [discriminate |].
  simpl. pose proof (iteration_in_bounds target st Hst) as Hit.
  destruct (iteration grid target st) as [st' | r].
  - now apply IH.
  - congruence.
Qed.

Lemma find_fastest_path_in_bounds (start target : coord) (fuel : nat) :
  in_bounds grid start ->
  find_fastest_path fuel grid start target <> Some (Raise IndexError).
Proof.
  intros Hstart. apply search_loop_in_bounds.
  unfold heap_in_bounds, initial, heappush. simpl. now constructor.
Qed.

End Bounds.

(** ** Grids that do not cover the box *)

Section SmallGrid.
Context {A : Arith}.

Lemma calculate_cost_Ok (here neighbor : Cell) (g : Grid) :
  0 <= terrain neighbor < 3 -> exists c, calculate_cost here neighbor g = Ok c.
Proof.
  intros Ht. unfold calculate_cost, terrain_cost.
  assert (Hc : terrain neighbor = 0 \/ terrain neighbor = 1 \/ terrain neighbor = 2)
    by lia.
  destruct Hc as [-> | [-> | ->]]; eexists; reflexivity.
Qed.

(** When no read can fail, [relax] returns and keeps the keys of the cost
    map. *)
Lemma relax_total (grid : Grid) (current : coord) (st : state) (d : Z * Z) :
  (in_box (current.1 + d.1) (current.2 + d.2) = true ->
   in_bounds grid (current.1 + d.1, current.2 + d.2)) ->
  in_bounds grid current ->
  (forall i j, 0 <= i < nrows grid -> 0 <= j < ncols grid ->
               0 <= terrain (cell_at grid i j) < 3) ->
  is_Some (cost_so_far st !! current) ->
  exists st', relax grid current st d = Ok st'
              /\ is_Some (cost_so_far st' !! current).
Proof.
  intros Hnb [Hcx Hcy] Hterrain Hcost.
  destruct (relax grid current st d) as [st' | e] eqn:Hrelax.
  - exists st'. split; [reflexivity |].
    apply relax_inv in Hrelax
        as [-> | (nb & here & c & step & _ & _ & _ & _ & _ & _ & ->)];
      [exact Hcost |].
    simpl. rewrite lookup_insert. destruct (decide _); [eauto | exact Hcost].
  - exfalso. apply relax_raise in Hrelax as [Hbox Hcases].
    destruct (Hnb Hbox) as [Hx Hy]. simpl in *.
    destruct Hcases as [H | [[H _] | [H | (here & nb & Hn & _ & H)]]].
    + rewrite grid_get_in_bounds in H by assumption. discriminate.
    + rewrite H in Hcost. now destruct Hcost.
    + rewrite grid_get_in_bounds in H by assumption. discriminate.
    + rewrite grid_get_in_bounds in Hn by assumption. injection Hn as <-.
      destruct (calculate_cost_Ok here
                  (cell_at grid (current.1 + d.1) (current.2 + d.2)) grid
                  (Hterrain _ _ Hx Hy)) as [c Hc].
      congruence.
Qed.

Lemma relax_IndexError (grid : Grid) (current : coord) (st : state) (d : Z * Z) :
  in_box (current.1 + d.1) (current.2 + d.2) = true ->
  grid_get grid (current.1 + d.1) (current.2 + d.2) = Raise IndexError ->
  relax grid current st d = Raise IndexError.
Proof.
  unfold relax. destruct current as [x y]. cbn [fst snd].
  intros -> ->. reflexivity.
Qed.

Lemma for_each_prefix_raise {S D} (P : S -> Prop) (body : S -> D -> result S)
    (e : exn) (pre : list D) (d : D) (post : list D) :
  (forall st d', In d' pre -> P st -> exists st', body st d' = Ok st' /\ P st') ->
  (forall st, P st -> body st d = Raise e) ->
  forall st, P st -> for_each body (pre ++ d :: post) st = Raise e.
Proof.
  intros Hpre Hd. induction pre as [| d' pre IH]; intros st HP; simpl.
  - now rewrite (Hd st HP).
  - destruct (Hpre st d' (or_introl eq_refl) HP) as (st' & -> & HP'). simpl.
    apply IH; [| exact HP']. intros s x Hx. apply Hpre. now right.
Qed.

Lemma search_loop_S (fuel : nat) (grid : Grid) (target : coord) (st : state) :
  search_loop (S fuel) grid target st
  = match iteration grid target st with
    | Done r => Some r
    | Next st' => search_loop fuel grid target st'
    end.
Proof. reflexivity. Qed.

(** The first iteration: the start is popped and its neighbours relaxed. *)
Lemma iteration_initial (grid : Grid) (start target : coord) :
  start <> target ->
  iteration grid target (initial start)
  = match for_each (relax grid start) directions (start_popped start) with
    | Ok st' => Next st'
    | Raise e => Done (Raise e)
    end.
Proof.
  intros Hne. unfold iteration, initial, heappush.
  cbn [open_set heappop came_from cost_so_far].
  destruct (decide (start = target)); [contradiction | reflexivity].
Qed.

Lemma first_iteration_raises (grid : Grid) (start target : coord) (e : exn)
    (fuel : nat) :
  start <> target ->
  for_each (relax grid start) directions (start_popped start) = Raise e ->
  find_fastest_path (S fuel) grid start target = Some (Raise e).
Proof.
  intros Hne Hfor. unfold find_fastest_path.
  rewrite search_loop_S, iteration_initial by exact Hne. now rewrite Hfor.
Qed.

(** A grid with fewer rows or columns than [GRID_SIZE], all of whose cells
    have a known terrain: from a start on its last row, or last column, the
    first iteration reads one cell too far, whatever the target. *)
Lemma small_grid_IndexError (grid : Grid) :
  0 < nrows grid -> 0 < ncols grid ->
  nrows grid < GRID_SIZE \/ ncols grid < GRID_SIZE ->
  (forall i j, 0 <= i < nrows grid -> 0 <= j < ncols grid ->
               0 <= terrain (cell_at grid i j) < 3) ->
  exists start,
    in_bounds grid start
    /\ forall target fuel,
        target <> start ->
        find_fastest_path (S fuel) grid start target = Some (Raise IndexError).
Proof.
  intros Hn Hm Hsmall Hterrain. unfold GRID_SIZE in Hsmall.
  set (n := nrows grid) in *. set (m := ncols grid) in *.
  destruct (Z_lt_dec n 100) as [Hn100 | Hn100].
  - exists (n - 1, 0).
    split; [unfold in_bounds; simpl; lia |].
    intros target fuel Hne.
    apply first_iteration_raises; [congruence |].
    { apply (for_each_prefix_raise
               (fun st => is_Some (cost_so_far st !! ((n - 1, 0) : coord)))
               (relax grid (n - 1, 0)) IndexError [(-1, 0)] (1, 0)
               [(0, -1); (0, 1)]).
      - intros st d' [<- | []] Hst.
        apply relax_total;
          [| unfold in_bounds; simpl; lia | exact Hterrain | exact Hst].
        unfold in_box, in_bounds, GRID_SIZE. simpl. lia.
      - intros st _. apply relax_IndexError; cbn [fst snd].
        + unfold in_box, GRID_SIZE. lia.
        + replace (n - 1 + 1) with (nrows grid) by (unfold n; lia).
          apply grid_get_beyond_rows. fold n. lia.
      - cbn [cost_so_far start_popped]. rewrite lookup_singleton_eq. eauto. }
  - exists (0, m - 1).
    split; [unfold in_bounds; simpl; lia |].
    intros target fuel Hne.
    apply first_iteration_raises; [congruence |].
    { apply (for_each_prefix_raise
               (fun st => is_Some (cost_so_far st !! ((0, m - 1) : coord)))
               (relax grid (0, m - 1)) IndexError [(-1, 0); (1, 0); (0, -1)]
               (0, 1) []).
      - intros st d' Hd' Hst.
        apply relax_total;
          [| unfold in_bounds; simpl; lia | exact Hterrain | exact Hst].
        unfold in_box, in_bounds, GRID_SIZE. simpl.
        destruct Hd' as [<- | [<- | [<- | []]]]; simpl; lia.
      - intros st _. apply relax_IndexError; cbn [fst snd].
        + unfold in_box, GRID_SIZE. lia.
        + replace (m - 1 + 1) with (ncols grid) by (unfold m; lia).
          apply grid_get_beyond_cols; fold n m; lia.
      - cbn [cost_so_far start_popped]. rewrite lookup_singleton_eq. eauto. }
Qed.

End SmallGrid.

(** C10, as amended: the bounds test uses [GRID_SIZE], so no read of the
    search leaves a grid that has at least [GRID_SIZE] rows and columns (in
    particular one of shape 100 x 100).  No shape with fewer rows or fewer
    columns has that guarantee: on every non-empty grid of such a shape
    whose cells all have a known terrain there is an in-bounds start from
    which the run raises [IndexError] at the first iteration, whatever the
    target other than the start. *)
Theorem bounds_safe_iff_grid_covers_box :
  accesses_in_bounds 100 100
  /\ (forall n m, GRID_SIZE <= n -> GRID_SIZE <= m -> accesses_in_bounds n m)
  /\ (forall n m, 0 < n -> 0 < m -> n < GRID_SIZE \/ m < GRID_SIZE ->
                  ~ accesses_in_bounds n m)
  /\ (forall (A : Arith) (grid : @Grid A),
         0 < nrows grid -> 0 < ncols grid ->
         nrows grid < GRID_SIZE \/ ncols grid < GRID_SIZE ->
         (forall i j, 0 <= i < nrows grid -> 0 <= j < ncols grid ->
                      0 <= terrain (cell_at grid i j) < 3) ->
         exists start,
           in_bounds grid start
           /\ forall target fuel,
               target <> start ->
               find_fastest_path (S fuel) grid start target
               = Some (Raise IndexError)).
Proof.
  assert (Hsafe : forall n m, GRID_SIZE <= n -> GRID_SIZE <= m ->
                              accesses_in_bounds n m).
  { intros n m Hn Hm A grid start target fuel Hrows Hcols Hstart.
    apply find_fastest_path_in_bounds; [lia | lia | exact Hstart]. }
  split; [apply Hsafe; unfold GRID_SIZE; lia |]. split; [exact Hsafe |].
  split; [| intros A grid; apply small_grid_IndexError].
  intros n m Hn Hm Hsmall Hacc.
  destruct (@small_grid_IndexError float_arith
              (@uniform_grid float_arith n m 0 (float_ofZ 0)) Hn Hm Hsmall)
    as (start & Hstart & Hraise); [intros; simpl; lia |].
  apply (Hacc float_arith (@uniform_grid float_arith n m 0 (float_ofZ 0))
            start (start.1 - 1, start.2) 1%nat eq_refl eq_refl Hstart).
  apply Hraise. destruct start as [x y]. simpl. intros [= H]. lia.
Qed.

(** C10 fails as stated: grids of shape 101 x 101, which is not 100 x 100,
    have the same guarantee. *)
Lemma larger_grid_is_safe :
  accesses_in_bounds 101 101 /\ (101, 101) <> (100, 100).
Proof.
  split; [| discriminate].
  intros A grid start target fuel Hrows Hcols Hstart.
  apply find_fastest_path_in_bounds; [unfold GRID_SIZE; lia .. | exact Hstart].
Qed.

(** ** A start away from the box *)

Section Outside.
Context {A : Arith}.

Lemma relax_outside (grid : Grid) (current : coord) (st : state) (d : Z * Z) :
  in_box (current.1 + d.1) (current.2 + d.2) = false ->
  relax grid current st d = Ok st.
Proof.
  unfold relax. destruct current as [x y]. cbn [fst snd]. now intros ->.
Qed.

Lemma for_each_unchanged {S D} (body : S -> D -> result S) (ds : list D) (st : S) :
  (forall d, In d ds -> body st d = Ok st) -> for_each body ds st = Ok st.
Proof.
  induction ds as [| d ds IH]; intros Hbody; simpl; [reflexivity |].
  rewrite (Hbody d) by now left. simpl. apply IH. intros d' Hd'.
  apply Hbody. now right.
Qed.

Lemma iteration_empty (grid : Grid) (target : coord) (st : state) :
  open_set st = [] ->
  iteration grid target st = Done (Ok (came_from st, cost_so_far st)).
Proof. unfold iteration. now intros ->. Qed.

End Outside.

(** C9, as amended: the search validates neither [start] nor [target].  For
    a start none of whose four neighbours passes the bounds test, it returns
    normally at the second test of the loop at the latest, with an empty
    predecessor map and the cost map [{start: 0}], whatever the target. *)
Theorem no_coordinate_validation {A : Arith} (grid : Grid)
    (start target : coord) (fuel : nat) :
  (forall d, In d directions ->
             in_box (start.1 + d.1) (start.2 + d.2) = false) ->
  find_fastest_path (S (S fuel)) grid start target
  = Some (Ok (∅, {[ start := nofZ 0 ]})).
Proof.
  intros Hout. unfold find_fastest_path. rewrite search_loop_S.
  destruct (decide (start = target)) as [<- | Hne].
  - now rewrite iteration_initial_self.
  - rewrite iteration_initial by exact Hne.
    rewrite for_each_unchanged
      by (intros d Hd; apply relax_outside; now apply Hout).
    rewrite search_loop_S. now rewrite iteration_empty.
Qed.

Lemma no_coordinate_validation_witness :
  @find_fastest_path float_arith 2 (asphalt_flat 100) (200, 200) (50, 50)
  = Some (Ok (∅, {[ (200, 200) := float_ofZ 0 ]})).
Proof.
  apply (@no_coordinate_validation float_arith (asphalt_flat 100)
           (200, 200) (50, 50) O).
  intros d [<- | [<- | [<- | [<- | []]]]]; reflexivity.
Defined.

(** ** The cost map only goes down *)

Section Monotone.
Context {A : Arith}.

Lemma lowered_refl (v : num) : lowered v v.
Proof. apply rtc_refl. Qed.

Lemma lowered_trans (a b c : num) : lowered a b -> lowered b c -> lowered a c.
Proof. apply rtc_trans. Qed.

Lemma costs_lowered_refl (st : state) : costs_lowered st st.
Proof. intros c v Hc. exists v. split; [exact Hc | apply lowered_refl]. Qed.

Lemma costs_lowered_trans (st1 st2 st3 : state) :
  costs_lowered st1 st2 -> costs_lowered st2 st3 -> costs_lowered st1 st3.
Proof.
  intros H12 H23 c v Hc.
  destruct (H12 c v Hc) as (v2 & Hc2 & Hl2).
  destruct (H23 c v2 Hc2) as (v3 & Hc3 & Hl3).
  exists v3. split; [exact Hc3 | now apply (lowered_trans v3 v2 v)].
Qed.

(** The one write of [relax]: a key that was present keeps its value or
    receives a strictly smaller one. *)
Lemma relax_write (grid : Grid) (current : coord) (st st' : state) (d : Z * Z)
    (c : coord) (v : num) :
  relax grid current st d = Ok st' ->
  cost_so_far st !! c = Some v ->
  cost_so_far st' !! c = Some v
  \/ exists v', cost_so_far st' !! c = Some v' /\ nltb v' v = true.
Proof.
  intros Hrelax Hc.
  apply relax_inv in Hrelax
      as [-> | (nb & here & c0 & step & _ & _ & _ & _ & _ & Himp & ->)];
    [now left |].
  cbn [written cost_so_far]. rewrite lookup_insert.
  destruct (decide _) as [Heq | Hne]; [| now left].
  right. eexists. split; [reflexivity |].
  unfold improves in Himp. rewrite Heq, Hc in Himp. exact Himp.
Qed.

Lemma relax_costs_lowered (grid : Grid) (current : coord) (st st' : state)
    (d : Z * Z) :
  relax grid current st d = Ok st' -> costs_lowered st st'.
Proof.
  intros Hrelax c v Hc.
  destruct (relax_write grid current st st' d c v Hrelax Hc)
    as [H | (v' & H & Hlt)].
  - exists v. split; [exact H | apply lowered_refl].
  - exists v'. split; [exact H | now apply rtc_once].
Qed.

Lemma for_each_relax_costs_lowered (grid : Grid) (current : coord)
    (ds : list (Z * Z)) :
  forall st st', for_each (relax grid current) ds st = Ok st' ->
                 costs_lowered st st'.
Proof.
  intros st st'.
  apply (for_each_Ok_ind (costs_lowered st)); [| apply costs_lowered_refl].
  intros s d s' Hs Hrelax. apply (costs_lowered_trans st s s' Hs).
  now apply (relax_costs_lowered grid current s s' d).
Qed.

Lemma iteration_costs_lowered (grid : Grid) (target : coord) (st st' : state) :
  iteration grid target st = Next st' -> costs_lowered st st'.
Proof.
  unfold iteration.
  destruct (heappop (open_set st)) as [[[prio current] rest] |];
    [| discriminate].
  destruct (decide (current = target)); [discriminate |].
  destruct (for_each _ _ _) as [s |] eqn:Hfor; [| discriminate].
  intros [= <-]. intros c v Hc.
  now apply (for_each_relax_costs_lowered grid current directions _ s Hfor c v).
Qed.

Lemma run_costs_lowered (grid : Grid) (target : coord) (k : nat) :
  forall st st', run k grid target st = Some st' -> costs_lowered st st'.
Proof.
  induction k as [| k IH]; intros st st' Hrun; simpl in Hrun.
  - injection Hrun as <-. apply costs_lowered_refl.
  - destruct (iteration grid target st) as [s | r] eqn:Hit; [| discriminate].
    apply (costs_lowered_trans st s st').
    + now apply (iteration_costs_lowered grid target).
    + now apply IH.
Qed.

End Monotone.

(** C6: in a run of the search a write to a key that is already in
    [cost_so_far] stores a strictly smaller value, and between any two
    points of the run every recorded key stays recorded with its value
    lowered by such writes only. *)
Theorem cost_map_monotone {A : Arith} (grid : Grid) (start target : coord) :
  (forall current st d st' c v,
      relax grid current st d = Ok st' ->
      cost_so_far st !! c = Some v ->
      cost_so_far st' !! c = Some v
      \/ exists v', cost_so_far st' !! c = Some v' /\ nltb v' v = true)
  /\ (forall k1 k2 st1 st2 c v,
         run k1 grid target (initial start) = Some st1 ->
         run k2 grid target st1 = Some st2 ->
         cost_so_far st1 !! c = Some v ->
         exists v', cost_so_far st2 !! c = Some v' /\ lowered v' v).
Proof.
  split.
  - intros current st d st' c v. apply relax_write.
  - intros k1 k2 st1 st2 c v _ Hrun Hc.
    now apply (run_costs_lowered grid target k2 st1 st2 Hrun c v).
Qed.

Section MonotoneWitness.
#[local] Existing Instance float_arith.

Lemma cost_map_monotone_witness :
  exists v' : float,
    (match run 3 (asphalt_flat 100) (2, 2) (initial (0, 0)) with
     | Some st => cost_so_far st !! ((0, 1) : coord)
     | None => None
     end) = Some v'
    /\ lowered v' (ndiv (nofZ 1) (lit 15 10)).
Proof.
  destruct (run 3 (asphalt_flat 100) (2, 2) (initial (0, 0)))
    as [st3 |] eqn:H3; [| vm_compute in H3; discriminate].
  destruct (run 1 (asphalt_flat 100) (2, 2) (initial (0, 0)))
    as [st1 |] eqn:H1; [| vm_compute in H1; discriminate].
  assert (H13 : run 2 (asphalt_flat 100) (2, 2) st1 = Some st3).
  { revert H3. simpl in *.
    destruct (iteration _ _ (initial _)) as [s |]; [| discriminate].
    injection H1 as <-. auto. }
  apply (proj2 (@cost_map_monotone float_arith (asphalt_flat 100) (0, 0) (2, 2))
           1%nat 2%nat st1 st3 (0, 1) _ H1 H13).
  simpl in H1. destruct (iteration _ _ (initial _)) as [s |] eqn:Hit;
    [| discriminate].
  injection H1 as <-. vm_compute in Hit. injection Hit as <-. reflexivity.
Defined.

End MonotoneWitness.

(** ** Termination of the search *)

Lemma count_le {X} (f f' : X -> bool) (l : list X) :
  (forall x, In x l -> f' x = true -> f x = true) ->
  (count f' l <= count f l)%nat.
Proof.
  induction l as [| x l IH]; intros Himp; simpl; [lia |].
  assert (IH' : (count f' l <= count f l)%nat).
  { apply IH. intros y Hy. apply Himp. now right. }
  destruct (f' x) eqn:Hf'; [| lia].
  rewrite (Himp x (or_introl eq_refl) Hf'). lia.
Qed.

Lemma count_lt {X} (f f' : X -> bool) (l : list X) (x0 : X) :
  (forall x, In x l -> f' x = true -> f x = true) ->
  In x0 l -> f x0 = true -> f' x0 = false ->
  (count f' l < count f l)%nat.
Proof.
  induction l as [| x l IH]; intros Himp Hin Hf Hf'; [destruct Hin |].
  simpl.
  assert (Hle : (count f' l <= count f l)%nat).
  { apply count_le. intros y Hy. apply Himp. now right. }
  destruct Hin as [-> | Hin].
  - rewrite Hf, Hf'. lia.
  - assert (Hlt : (count f' l < count f l)%nat).
    { apply IH; try assumption. intros y Hy. apply Himp. now right. }
    destruct (f' x) eqn:Hx; [| lia].
    rewrite (Himp x (or_introl eq_refl) Hx). lia.
Qed.

Lemma lists_upto_complete (V : list coord) (k : nat) :
  forall p, Forall (fun v => In v V) p -> (length p <= k)%nat ->
            In p (lists_upto V k).
Proof.
  induction k as [| k IH]; intros p Hp Hlen.
  - destruct p; [now left | simpl in Hlen; lia].
  - destruct p as [| v p]; [now left |]. right.
    apply Forall_cons in Hp as [Hv Hp]. simpl in Hlen.
    apply in_flat_map. exists p. split; [apply IH; [exact Hp | lia] |].
    apply in_map_iff. now exists v.
Qed.

Lemma in_box_cells (x y : Z) : in_box x y = true -> In (x, y) box_cells.
Proof.
  unfold in_box, box_cells, GRID_SIZE. intros Hbox.
  apply in_prod; apply list_elem_of_In, elem_of_seqZ; lia.
Qed.

(** A route without repetition over the nodes is a candidate. *)
Lemma NoDup_candidate (start : coord) (p : list coord) :
  NoDup p -> Forall (fun v => In v (nodes start)) p -> In p (candidates start).
Proof.
  intros Hnd Hp. apply lists_upto_complete; [exact Hp |].
  apply submseteq_length, NoDup_submseteq; [exact Hnd |].
  intros v Hv. rewrite Forall_forall in Hp. apply list_elem_of_In.
  now apply Hp.
Qed.

Section Termination.
Context {A : Arith} {L : ArithLaws A}.
Variable grid : Grid.
Variable start : coord.

Lemma backed_route_cost (cost : gmap coord num) (p : list coord) (w : num) :
  backed grid start cost p w -> route_cost grid start p = Some w.
Proof.
  induction 1 as [u Hu Hle | n current rest w step u here nb Hb IH Hbox Hh Hn Hs Hu Hle].
  - simpl. destruct (decide (start = start)); [reflexivity | contradiction].
  - change (route_cost grid start (n :: current :: rest))
      with (match route_cost grid start (current :: rest),
                  grid_get grid current.1 current.2,
                  grid_get grid n.1 n.2 with
            | Some w, Ok here, Ok neighbor =>
                match calculate_cost here neighbor grid with
                | Ok step => Some (nadd w step)
                | Raise _ => None
                end
            | _, _, _ => None
            end).
    now rewrite IH, Hh, Hn, Hs.
Qed.

Lemma backed_nodes (cost : gmap coord num) (p : list coord) (w : num) :
  backed grid start cost p w -> Forall (fun v => In v (nodes start)) p.
Proof.
  induction 1 as [u Hu Hle | n current rest w step u here nb Hb IH Hbox Hh Hn Hs Hu Hle].
  - constructor; [now left | constructor].
  - constructor; [| exact IH]. right. destruct n as [x y]. now apply in_box_cells.
Qed.

(** Lowering entries of the cost map keeps a route backed. *)
Lemma backed_mono (cost cost' : gmap coord num) (p : list coord) (w : num) :
  (forall c u, cost !! c = Some u ->
               exists u', cost' !! c = Some u' /\ nle u' u) ->
  backed grid start cost p w -> backed grid start cost' p w.
Proof.
  intros Hlow.
  induction 1 as [u Hu Hle | n current rest w step u here nb Hb IH Hbox Hh Hn Hs Hu Hle].
  - destruct (Hlow start u Hu) as (u' & Hu' & Hle').
    apply (backed_start grid start cost' u' Hu'). now apply (nle_trans u' u).
  - destruct (Hlow n u Hu) as (u' & Hu' & Hle').
    apply (backed_step grid start cost' n current rest w step u' here nb);
      try assumption.
    now apply (nle_trans u' u).
Qed.

(** Along a backed route every coordinate is recorded at no more than the
    cost of the whole route: step costs are not negative. *)
Lemma backed_member (cost : gmap coord num) (p : list coord) (w : num) :
  backed grid start cost p w ->
  forall m, In m p -> exists u, cost !! m = Some u /\ nle u w.
Proof.
  induction 1 as [u Hu Hle | n current rest w step u here nb Hb IH Hbox Hh Hn Hs Hu Hle];
    intros m Hm.
  - destruct Hm as [<- | []]. now exists u.
  - destruct Hm as [<- | Hm]; [now exists u |].
    destruct (IH m Hm) as (u' & Hu' & Hle'). exists u'. split; [exact Hu' |].
    apply (nle_trans u' w); [exact Hle' |].
    apply nadd_mono. now apply (calculate_cost_nonneg here nb grid).
Qed.

Lemma initial_costs_backed :
  costs_backed grid start (cost_so_far (initial start)).
Proof.
  intros n v Hn. cbn [initial cost_so_far] in Hn.
  apply lookup_singleton_Some in Hn as [<- <-].
  exists []. split; [| apply NoDup_singleton].
  apply (backed_start grid start _ (nofZ 0)); [| apply nle_refl].
  cbn [initial cost_so_far]. apply lookup_singleton_eq.
Qed.

(** The write of [relax] keeps every recorded cost backed and closes at
    least one open route. *)
Lemma write_backed (cost : gmap coord num) (current n : coord) (c step : num)
    (here neighbor : Cell) :
  costs_backed grid start cost ->
  in_box n.1 n.2 = true ->
  grid_get grid n.1 n.2 = Ok neighbor ->
  cost !! current = Some c ->
  grid_get grid current.1 current.2 = Ok here ->
  calculate_cost here neighbor grid = Ok step ->
  improves cost n (nadd c step) = true ->
  costs_backed grid start (<[n := nadd c step]> cost)
  /\ (count (open_route grid start (<[n := nadd c step]> cost)) (candidates start)
      < count (open_route grid start cost) (candidates start))%nat.
Proof.
  intros Hinv Hbox Hn Hc Hh Hs Himp.
  set (new := nadd c step) in *. set (cost' := <[n := new]> cost).
  destruct (Hinv current c Hc) as (rest & Hback & Hnd).
  assert (Hlow : forall k u, cost !! k = Some u ->
                             exists u', cost' !! k = Some u' /\ nle u' u).
  { intros k u Hk. unfold cost'. rewrite lookup_insert.
    destruct (decide (n = k)) as [<- | Hne].
    - exists new. split; [reflexivity |]. apply nltb_nle.
      unfold improves in Himp. now rewrite Hk in Himp.
    - exists u. split; [exact Hk | apply nle_refl]. }
  assert (Hfresh : ~ In n (current :: rest)).
  { intros Hin.
    destruct (backed_member cost _ _ Hback n Hin) as (u & Hu & Hle).
    unfold improves in Himp. rewrite Hu in Himp.
    assert (Hle' : nle u new).
    { apply (nle_trans u c); [exact Hle |]. apply nadd_mono.
      now apply (calculate_cost_nonneg here neighbor grid). }
    unfold nle in Hle'. congruence. }
  assert (Hnew : backed grid start cost' (n :: current :: rest) new).
  { apply (backed_step grid start cost' n current rest c step new here neighbor);
      try assumption.
    - now apply (backed_mono cost).
    - unfold cost'. apply lookup_insert_eq.
    - apply nle_refl. }
  assert (Hnd' : NoDup (n :: current :: rest)).
  { apply NoDup_cons. split; [| exact Hnd]. now rewrite list_elem_of_In. }
  split.
  - intros k v Hk. unfold cost' in Hk. rewrite lookup_insert in Hk.
    destruct (decide (n = k)) as [<- | Hne].
    + injection Hk as <-. now exists (current :: rest).
    + destruct (Hinv k v Hk) as (rest' & Hb' & Hnd''). exists rest'.
      split; [now apply (backed_mono cost) | exact Hnd''].
  - apply (count_lt _ _ _ (n :: current :: rest)).
    + intros q _. unfold open_route. destruct q as [| m q]; [discriminate |].
      destruct (route_cost grid start (m :: q)) as [w |]; [| discriminate].
      unfold improves, cost'. rewrite lookup_insert.
      destruct (decide (n = m)) as [<- | Hne]; [| auto].
      intros Hw. destruct (cost !! n) as [old |] eqn:Hold; [| reflexivity].
      apply (nltb_trans w new old Hw).
      unfold improves in Himp. now rewrite Hold in Himp.
    + apply NoDup_candidate; [exact Hnd' |]. now apply (backed_nodes cost' _ new).
    + unfold open_route. now rewrite (backed_route_cost cost' _ _ Hnew).
    + unfold open_route. rewrite (backed_route_cost cost' _ _ Hnew).
      unfold improves, cost'. rewrite lookup_insert_eq. apply nltb_irrefl.
Qed.

Lemma relax_potential (current : coord) (st st' : state) (d : Z * Z) :
  costs_backed grid start (cost_so_far st) ->
  relax grid current st d = Ok st' ->
  costs_backed grid start (cost_so_far st')
  /\ (potential grid start st' <= potential grid start st)%nat.
Proof.
  intros Hinv Hrelax.
  apply relax_inv in Hrelax
      as [-> | (nb & here & c & step & Hbox & Hn & Hc & Hh & Hs & Himp & ->)];
    [split; [exact Hinv | lia] |].
  destruct (write_backed (cost_so_far st) current _ c step here nb
              Hinv Hbox Hn Hc Hh Hs Himp) as [Hinv' Hlt].
  split; [exact Hinv' |].
  unfold potential, written, heappush. cbn [open_set cost_so_far length]. lia.
Qed.

Lemma iteration_potential (target : coord) (st st' : state) :
  costs_backed grid start (cost_so_far st) ->
  iteration grid target st = Next st' ->
  costs_backed grid start (cost_so_far st')
  /\ (potential grid start st' < potential grid start st)%nat.
Proof.
  intros Hinv. unfold iteration.
  destruct (heappop (open_set st)) as [[[prio current] rest] |] eqn:Hpop;
    [| discriminate].
  destruct (decide (current = target)); [discriminate |].
  set (popped := {| open_set := rest |}).
  destruct (for_each (relax grid current) directions popped) as [s |] eqn:Hfor;
    [| discriminate].
  intros [= <-].
  assert (Hpopped : (potential grid start popped < potential grid start st)%nat).
  { unfold potential, popped. cbn [open_set cost_so_far].
    rewrite (heappop_length _ _ _ Hpop). lia. }
  assert (Hs : costs_backed grid start (cost_so_far s)
               /\ (potential grid start s <= potential grid start popped)%nat).
  { apply (for_each_Ok_ind
             (fun x => costs_backed grid start (cost_so_far x)
                       /\ (potential grid start x <= potential grid start popped)%nat)
             (relax grid current) directions) with (st := popped);
      [| split; [exact Hinv | lia] | exact Hfor].
    intros x d x' [Hx Hle] Hrelax.
    destruct (relax_potential current x x' d Hx Hrelax) as [Hx' Hle'].
    split; [exact Hx' | lia]. }
  destruct Hs as [Hs Hle]. split; [exact Hs | lia].
Qed.

(** With more fuel than potential the loop ends. *)
Lemma search_loop_terminates (target : coord) (fuel : nat) :
  forall st,
    costs_backed grid start (cost_so_far st) ->
    (potential grid start st < fuel)%nat ->
    exists r, search_loop fuel grid target st = Some r.
Proof.
  induction fuel as [| fuel IH]; intros st Hinv Hpot; [lia |].
  rewrite search_loop_S.
  destruct (iteration grid target st) as [st' | r] eqn:Hit; [| now exists r].
  destruct (iteration_potential target st st' Hinv Hit) as [Hinv' Hlt].
  apply IH; [exact Hinv' | lia].
Qed.

End Termination.

(** A result does not change when more fuel is given. *)
Lemma search_loop_more_fuel {A : Arith} (grid : Grid) (target : coord)
    (fuel : nat) :
  forall st r fuel',
    search_loop fuel grid target st = Some r -> (fuel <= fuel')%nat ->
    search_loop fuel' grid target st = Some r.
Proof.
  induction fuel as [| fuel IH]; intros st r fuel' Hrun Hle; [discriminate |].
  destruct fuel' as [| fuel']; [lia |].
  rewrite search_loop_S in *.
  destruct (iteration grid target st) as [st' | r']; [| exact Hrun].
  apply (IH st' r fuel' Hrun). lia.
Qed.

(** ** No missing key on a grid of known terrains *)

Section Recorded.
Context {A : Arith}.
Variable grid : Grid.
Hypothesis known_terrain : forall i j, 0 <= terrain (cell_at grid i j) < 3.

Lemma grid_get_raise (i j : Z) (e : exn) :
  grid_get grid i j = Raise e -> e = IndexError.
Proof.
  unfold grid_get, axis_index. intros H.
  repeat (apply bind_Raise_inv in H as [H | (? & _ & H)]);
    try discriminate;
    repeat (destruct (_ && _) in H; try discriminate);
    congruence.
Qed.

Lemma grid_get_cell (i j : Z) (c : Cell) :
  grid_get grid i j = Ok c -> exists i' j', c = cell_at grid i' j'.
Proof.
  unfold grid_get. intros H.
  apply bind_Ok_inv in H as (i' & _ & H).
  apply bind_Ok_inv in H as (j' & _ & H).
  injection H as <-. eauto.
Qed.

Lemma relax_no_KeyError (current : coord) (st : state) (d : Z * Z) :
  is_Some (cost_so_far st !! current) ->
  relax grid current st d <> Raise KeyError.
Proof.
  intros Hcur Hrelax.
  apply relax_raise in Hrelax as [_ Hcases].
  destruct Hcases as [H | [[H _] | [H | (here & nb & Hn & _ & H)]]].
  - apply grid_get_raise in H. discriminate.
  - rewrite H in Hcur. now destruct Hcur.
  - apply grid_get_raise in H. discriminate.
  - apply grid_get_cell in Hn as (i' & j' & ->).
    destruct (calculate_cost_Ok here (cell_at grid i' j') grid (known_terrain i' j'))
      as [c Hc].
    congruence.
Qed.

Lemma relax_heap_recorded (current : coord) (st st' : state) (d : Z * Z) :
  heap_recorded st /\ is_Some (cost_so_far st !! current) ->
  relax grid current st d = Ok st' ->
  heap_recorded st' /\ is_Some (cost_so_far st' !! current).
Proof.
  intros [Hheap Hcur] Hrelax.
  apply relax_inv in Hrelax
      as [-> | (nb & here & c & step & _ & _ & _ & _ & _ & _ & ->)];
    [now split |].
  assert (Hkeep : forall k, is_Some (cost_so_far st !! k) ->
                            is_Some (<[(current.1 + d.1, current.2 + d.2)
                                       := nadd c step]> (cost_so_far st) !! k)).
  { intros k Hk. rewrite lookup_insert. destruct (decide _); [eauto | exact Hk]. }
  split; [| now apply Hkeep].
  unfold heap_recorded, written, heappush. cbn [open_set cost_so_far].
  constructor.
  - cbn [snd]. rewrite lookup_insert_eq. eauto.
  - unfold heap_recorded in Hheap. rewrite Forall_forall in *.
    intros e He. apply Hkeep. now apply Hheap.
Qed.

Lemma iteration_recorded (target : coord) (st : state) :
  heap_recorded st ->
  match iteration grid target st with
  | Next st' => heap_recorded st'
  | Done r => r <> Raise KeyError
  end.
Proof.
  intros Hst. unfold iteration.
  destruct (heappop (open_set st)) as [[[prio current] rest] |] eqn:Hpop;
    [| discriminate].
  destruct (decide (current = target)); [discriminate |].
  apply heappop_Permutation in Hpop.
  unfold heap_recorded in Hst. rewrite Hpop in Hst.
  apply Forall_cons in Hst as [Hcur Hrest]. cbn [snd] in Hcur.
  set (popped := {| open_set := rest |}).
  assert (Hpopped : heap_recorded popped
                    /\ is_Some (cost_so_far popped !! current)) by now split.
  destruct (for_each (relax grid current) directions popped) as [st' | e] eqn:Hfor.
  - apply (for_each_Ok_ind _ _ _
             (fun s d s' => relax_heap_recorded current s s' d) _ _ Hpopped Hfor).
  - intros [= ->].
    destruct (for_each_Raise_inv _ _ _ _
                (fun s d s' => relax_heap_recorded current s s' d) _ Hpopped Hfor)
      as (st1 & d & [_ Hcur1] & Hraise).
    now apply (relax_no_KeyError current st1 d).
Qed.

Lemma search_loop_recorded (target : coord) (fuel : nat) :
  forall st, heap_recorded st ->
             search_loop fuel grid target st <> Some (Raise KeyError).
Proof.
  induction fuel as [| fuel IH]; intros st Hst; [discriminate |].
  rewrite search_loop_S. pose proof (iteration_recorded target st Hst) as Hit.
  destruct (iteration grid target st) as [st' | r].
  - now apply IH.
  - congruence.
Qed.

Lemma find_fastest_path_recorded (start target : coord) (fuel : nat) :
  find_fastest_path fuel grid start target <> Some (Raise KeyError).
Proof.
  apply search_loop_recorded.
  unfold heap_recorded, initial, heappush. cbn [open_set cost_so_far].
  constructor; [| constructor]. cbn [snd]. rewrite lookup_singleton_eq. eauto.
Qed.

End Recorded.


Section TerminationWitness.
#[local] Existing Instance real_arith.


End TerminationWitness.

Section EndsByException.
#[local] Existing Instance float_arith.


End EndsByException.

(** ** Path reconstruction along a chain that reaches the start *)

Lemma linked_cons {X} (R : X -> X -> Prop) (a b : X) (l : list X) :
  linked R (a :: b :: l) <-> R a b /\ linked R (b :: l).
Proof. reflexivity. Qed.

Lemma linked_snoc {X} (R : X -> X -> Prop) (l : list X) (a b : X) :
  linked R (l ++ [a]) -> R a b -> linked R (l ++ [a; b]).
Proof.
  induction l as [| x l IH]; intros Hl Hab; simpl.
  - split; [exact Hab | exact I].
  - destruct l as [| y l].
    + simpl in *. split; [apply Hl | split; [exact Hab | exact I]].
    + simpl in Hl. destruct Hl as [Hxy Hl]. split; [exact Hxy |].
      now apply IH.
Qed.

Lemma linked_rev {X} (R : X -> X -> Prop) (l : list X) :
  linked R l -> linked (fun a b => R b a) (rev l).
Proof.
  induction l as [| a l IH]; intros Hl; [exact I |].
  destruct l as [| b l]; [exact I |].
  destruct Hl as [Hab Hl]. specialize (IH Hl).
  change (rev (a :: b :: l)) with ((rev l ++ [b]) ++ [a]).
  rewrite <- app_assoc. simpl.
  apply linked_snoc; [exact IH | exact Hab].
Qed.

Section Trail.
Variable came_from : gmap coord coord.

Lemma trail_length (k : nat) :
  forall c e, follow came_from k c = Some e ->
              length (trail came_from k c) = S k.
Proof.
  induction k as [| k IH]; intros c e Hf; [reflexivity |].
  simpl in *. destruct (came_from !! c) as [p |]; [| discriminate].
  f_equal. now apply (IH p e).
Qed.

Lemma trail_last (k : nat) :
  forall c e, follow came_from k c = Some e ->
              last (trail came_from k c) = Some e.
Proof.
  induction k as [| k IH]; intros c e Hf.
  - simpl in *. congruence.
  - simpl in *. destruct (came_from !! c) as [p |] eqn:Hp; [| discriminate].
    specialize (IH p e Hf).
    destruct (trail came_from k p) as [| x l] eqn:Ht; [discriminate |].
    exact IH.
Qed.

Lemma trail_S (k : nat) (c p : coord) :
  came_from !! c = Some p ->
  trail came_from (S k) c = c :: trail came_from k p.
Proof. intros Hp. simpl. now rewrite Hp. Qed.

Lemma trail_head (k : nat) (c : coord) :
  exists l, trail came_from k c = c :: l.
Proof. destruct k; simpl; eauto. Qed.

Lemma trail_linked (k : nat) :
  forall c e, follow came_from k c = Some e ->
              linked (fun a b => came_from !! a = Some b) (trail came_from k c).
Proof.
  induction k as [| k IH]; intros c e Hf; [exact I |].
  destruct (came_from !! c) as [p |] eqn:Hp; [| simpl in Hf; now rewrite Hp in Hf].
  rewrite (follow_S_inv _ _ _ _ Hp) in Hf. rewrite (trail_S _ _ _ Hp).
  specialize (IH p e Hf). destruct (trail_head k p) as [l Hl].
  rewrite Hl in *. apply linked_cons. now split.
Qed.

Lemma reconstruct_loop_chain (start : coord) (k : nat) :
  forall current path fuel,
    follow came_from k current = Some start ->
    (forall j c, (j < k)%nat -> follow came_from j current = Some c ->
                 c <> start) ->
    (k < fuel)%nat ->
    reconstruct_loop fuel came_from start current path
    = Some (Ok (rev (path ++ trail came_from k current))).
Proof.
  induction k as [| k IH]; intros current path fuel Hf Hfirst Hfuel;
    (destruct fuel as [| fuel]; [lia |]); simpl in *.
  - injection Hf as ->.
    destruct (decide (start = start)); [reflexivity | contradiction].
  - destruct (decide (current = start)) as [Heq | _].
    + exfalso. apply (Hfirst O current); [lia | reflexivity | exact Heq].
    + destruct (came_from !! current) as [p |] eqn:Hp; [| discriminate].
      rewrite (IH p (path ++ [current]) fuel Hf); [| | lia].
      * now rewrite <- app_assoc.
      * intros j c Hj Hc. apply (Hfirst (S j) c); [lia |].
        simpl. now rewrite Hp.
Qed.

End Trail.

Lemma head_rev {X} (l : list X) : head (rev l) = last l.
Proof. rewrite rev_alt. apply head_reverse. Qed.

Lemma last_rev {X} (l : list X) : last (rev l) = head l.
Proof. rewrite rev_alt. apply last_reverse. Qed.

(** X1: when following predecessors from [target] first reaches [start]
    after [k] links, [reconstruct_path] returns, with more than [k] units of
    fuel, the path of [k + 1] coordinates that begins with [start], ends with
    [target] and in which every coordinate is the recorded predecessor of the
    next. *)
Theorem reconstruct_path_along_chain (came_from : gmap coord coord)
    (start target : coord) (k fuel : nat) :
  follow came_from k target = Some start ->
  (forall j c, (j < k)%nat -> follow came_from j target = Some c ->
               c <> start) ->
  (k < fuel)%nat ->
  exists path,
    reconstruct_path fuel came_from start target = Some (Ok path)
    /\ length path = S k
    /\ head path = Some start
    /\ last path = Some target
    /\ linked (fun a b => came_from !! b = Some a) path.
Proof.
  intros Hf Hfirst Hfuel. exists (rev (trail came_from k target)).
  split; [| split; [| split; [| split]]].
  - unfold reconstruct_path.
    now rewrite (reconstruct_loop_chain came_from start k target [] fuel).
  - rewrite length_rev. now apply (trail_length came_from k target start).
  - rewrite head_rev. now apply trail_last.
  - rewrite last_rev. destruct k; reflexivity.
  - apply linked_rev. now apply (trail_linked came_from k target start).
Qed.

Lemma reconstruct_path_along_chain_witness :
  exists path,
    reconstruct_path 3 (<[(0, 2) := (0, 1)]> (<[(0, 1) := (0, 0)]> ∅)) (0, 0) (0, 2)
    = Some (Ok path)
    /\ length path = 3%nat
    /\ head path = Some (0, 0)
    /\ last path = Some (0, 2)
    /\ linked (fun a b => (<[(0, 2) := (0, 1)]> (<[(0, 1) := (0, 0)]> ∅)
                            : gmap coord coord) !! b = Some a) path.
Proof.
  apply (reconstruct_path_along_chain
           (<[(0, 2) := (0, 1)]> (<[(0, 1) := (0, 0)]> ∅)) (0, 0) (0, 2) 2 3).
  - reflexivity.
  - intros [| [| j]] c Hj Hc; [| | lia]; vm_compute in Hc; injection Hc as <-;
      discriminate.
  - lia.
Defined.

(** ** Errors of the cost model *)

(** X2: [calculate_cost] raises [KeyError] exactly when the terrain code of
    the neighbour is none of 0, 1, 2, whatever the other cell; it returns a
    cost otherwise and never raises [IndexError]. *)
Theorem calculate_cost_KeyError {A : Arith} (current neighbor : Cell)
    (grid : Grid) :
  (calculate_cost current neighbor grid = Raise KeyError
   <-> ~ 0 <= terrain neighbor < 3)
  /\ ((exists c, calculate_cost current neighbor grid = Ok c)
      <-> 0 <= terrain neighbor < 3)
  /\ calculate_cost current neighbor grid <> Raise IndexError.
Proof.
  assert (Hbad : ~ 0 <= terrain neighbor < 3 ->
                 calculate_cost current neighbor grid = Raise KeyError).
  { intros Ht. unfold calculate_cost, terrain_cost, terrain_types.
    destruct (terrain neighbor =? 0) eqn:H0; [lia |].
    destruct (terrain neighbor =? 1) eqn:H1; [lia |].
    destruct (terrain neighbor =? 2) eqn:H2; [lia |]. reflexivity. }
  split; [| split].
  - split; [| exact Hbad]. intros Hraise Ht.
    destruct (calculate_cost_Ok current neighbor grid Ht) as [c Hc]. congruence.
  - split; [| apply calculate_cost_Ok]. intros [c Hc].
    destruct (decide (0 <= terrain neighbor < 3)) as [Ht | Ht]; [exact Ht |].
    rewrite (Hbad Ht) in Hc. discriminate.
  - intros Hraise. apply calculate_cost_raise in Hraise. discriminate.
Qed.

(** ** The invariants of the search *)

Section Cases.
Context {A : Arith}.

(** The three ways [relax] returns: the neighbour fails the bounds test; it
    passes but its cost is not improved; it passes and is written. *)
Lemma relax_cases (grid : Grid) (current : coord) (st st' : state) (d : Z * Z) :
  relax grid current st d = Ok st' ->
  let m := (current.1 + d.1, current.2 + d.2) in
  (in_box m.1 m.2 = false /\ st' = st)
  \/ (in_box m.1 m.2 = true
      /\ exists neighbor here c step,
          grid_get grid m.1 m.2 = Ok neighbor
          /\ cost_so_far st !! current = Some c
          /\ grid_get grid current.1 current.2 = Ok here
          /\ calculate_cost here neighbor grid = Ok step
          /\ ((improves (cost_so_far st) m (nadd c step) = false /\ st' = st)
              \/ (improves (cost_so_far st) m (nadd c step) = true
                  /\ st' = written st current m (nadd c step)))).
Proof.
  unfold relax. destruct current as [x y]. cbn [fst snd]. intros H.
  destruct (in_box (x + d.1) (y + d.2)) eqn:Hbox;
    [right; split; [reflexivity |] | injection H as <-; now left].
  apply bind_Ok_inv in H as (neighbor & Hn & H).
  apply bind_Ok_inv in H as (c & Hc & H). apply getitem_Ok_inv in Hc.
  apply bind_Ok_inv in H as (here & Hh & H).
  apply bind_Ok_inv in H as (step & Hs & H).
  exists neighbor, here, c, step. repeat (split; [assumption |]).
  destruct (improves (cost_so_far st) (x + d.1, y + d.2) (nadd c step));
    injection H as <-; [right | left]; now split.
Qed.

Lemma improves_Some (cs : gmap coord num) (m : coord) (x u : num) :
  improves cs m x = true -> cs !! m = Some u -> nltb x u = true.
Proof. unfold improves. intros H Hu. now rewrite Hu in H. Qed.

Lemma improves_false_inv (cs : gmap coord num) (m : coord) (x : num) :
  improves cs m x = false -> exists u, cs !! m = Some u /\ nle u x.
Proof.
  unfold improves, nle. destruct (cs !! m) as [u |]; [eauto | discriminate].
Qed.

Lemma follow_add (cf : gmap coord coord) (a b : nat) :
  forall c, follow cf (a + b) c
            = match follow cf a c with
              | Some x => follow cf b x
              | None => None
              end.
Proof.
  induction a as [| a IH]; intros c; [reflexivity |].
  simpl. destruct (cf !! c) as [p |]; [apply IH | reflexivity].
Qed.

(** A predecessor map that gains a link still leads to the start, when the
    new key is given a predecessor that leads there without the key. *)
Lemma follow_insert_reach (cf : gmap coord coord) (start m p : coord) (kp : nat) :
  follow (<[m := p]> cf) kp p = Some start ->
  forall k n, follow cf k n = Some start ->
              exists k', follow (<[m := p]> cf) k' n = Some start.
Proof.
  intros Hp. induction k as [| k IH]; intros n Hn.
  - exists O. exact Hn.
  - destruct (decide (n = m)) as [-> | Hne].
    + exists (S kp). simpl. now rewrite lookup_insert_eq.
    + simpl in Hn. destruct (cf !! n) as [q |] eqn:Hq; [| discriminate].
      destruct (IH q Hn) as [k' Hk']. exists (S k'). simpl.
      rewrite lookup_insert_ne by congruence. now rewrite Hq.
Qed.

(** Following links that never meet [m] does not see a change at [m]. *)
Lemma follow_insert_avoid (cf : gmap coord coord) (m p : coord) (k : nat) :
  forall c,
    (forall j x, (j < k)%nat -> follow cf j c = Some x -> x <> m) ->
    follow (<[m := p]> cf) k c = follow cf k c.
Proof.
  induction k as [| k IH]; intros c Havoid; [reflexivity |].
  simpl. assert (Hc : c <> m) by (apply (Havoid O c); [lia | reflexivity]).
  rewrite lookup_insert_ne by congruence.
  destruct (cf !! c) as [q |] eqn:Hq; [| reflexivity].
  apply IH. intros j x Hj Hx. apply (Havoid (S j) x); [lia |].
  simpl. now rewrite Hq.
Qed.

End Cases.

Section Tree.
Context {A : Arith} {L : ArithLaws A}.
Variable grid : Grid.
Variable start : coord.

Lemma initial_tree_inv :
  tree_inv start (came_from (initial start)) (cost_so_far (initial start)).
Proof.
  unfold initial. cbn [came_from cost_so_far]. split.
  - apply lookup_singleton_eq.
  - intros n v Hn. apply lookup_singleton_Some in Hn as [_ <-]. apply nle_refl.
  - intros n p Hn. rewrite lookup_empty in Hn. discriminate.
  - intros n v Hn Hne. apply lookup_singleton_Some in Hn as [-> _].
    contradiction.
  - intros n v Hn. apply lookup_singleton_Some in Hn as [<- _]. now exists O.
Qed.

(** Along predecessor links recorded costs do not go up. *)
Lemma chain_cost (cf : gmap coord coord) (cs : gmap coord num) (j : nat) :
  tree_inv start cf cs ->
  forall n c x,
    cs !! n = Some c -> follow cf j n = Some x ->
    exists cx, cs !! x = Some cx /\ nle cx c.
Proof.
  intros Hinv. induction j as [| j IH]; intros n c x Hc Hx.
  - simpl in Hx. injection Hx as <-. exists c. split; [exact Hc | apply nle_refl].
  - simpl in Hx. destruct (cf !! n) as [p |] eqn:Hp; [| discriminate].
    destruct (tree_pred _ _ _ Hinv n p Hp) as (_ & _ & _ & cn & cp & Hcn & Hcp & Hle).
    assert (cn = c) by congruence. subst cn.
    destruct (IH p cp x Hcp Hx) as (cx & Hcx & Hle'). exists cx.
    split; [exact Hcx | now apply (nle_trans cx cp c)].
Qed.

(** The start never gets a predecessor. *)
Lemma tree_start_no_pred (cf : gmap coord coord) (cs : gmap coord num) :
  tree_inv start cf cs -> cf !! start = None.
Proof.
  intros Hinv. destruct (cf !! start) as [p |] eqn:Hp; [| reflexivity].
  destruct (tree_pred _ _ _ Hinv start p Hp) as (Hne & _). contradiction.
Qed.

(** [improves] stays false when another entry, or the same, is lowered. *)
Lemma improves_false_write (cs : gmap coord num) (m m' : coord) (new x : num) :
  improves cs m new = true ->
  improves cs m' x = false ->
  improves (<[m := new]> cs) m' x = false.
Proof.
  unfold improves. intros Hm Hm'. rewrite lookup_insert.
  destruct (decide (m = m')) as [<- | Hne]; [| exact Hm'].
  destruct (cs !! m) as [old |]; [| discriminate].
  destruct (nltb x new) eqn:Hx; [| reflexivity].
  rewrite <- Hm'. symmetry. now apply (nltb_trans x new old).
Qed.

Lemma edge_settled_write (cs : gmap coord num) (n m : coord) (d : Z * Z)
    (new : num) :
  n <> m ->
  improves cs m new = true ->
  edge_settled grid cs n d ->
  edge_settled grid (<[m := new]> cs) n d.
Proof.
  intros Hne Himp Hedge Hbox.
  destruct (Hedge Hbox) as (c & here & nb & step & Hc & Hh & Hn & Hs & Hno).
  exists c, here, nb, step. rewrite lookup_insert_ne by congruence.
  repeat (split; [assumption |]). now apply improves_false_write.
Qed.

(** The write of [relax] keeps the invariant of the two maps; the written
    key is neither the start nor the expanded coordinate. *)
Lemma write_tree_inv (cf : gmap coord coord) (cs : gmap coord num)
    (current : coord) (d : Z * Z) (c step : num) (here neighbor : Cell) :
  let m := (current.1 + d.1, current.2 + d.2) in
  tree_inv start cf cs ->
  In d directions ->
  in_box m.1 m.2 = true ->
  cs !! current = Some c ->
  calculate_cost here neighbor grid = Ok step ->
  improves cs m (nadd c step) = true ->
  tree_inv start (<[m := current]> cf) (<[m := nadd c step]> cs)
  /\ m <> current /\ m <> start.
Proof.
  intros m Hinv Hd Hbox Hc Hs Himp.
  assert (Hstep : nle (nofZ 0) step)
    by now apply (calculate_cost_nonneg here neighbor grid).
  assert (Hcnew : nle c (nadd c step)) by now apply nadd_mono.
  assert (Hnew0 : nle (nofZ 0) (nadd c step)).
  { apply nadd_nonneg; [| exact Hstep]. now apply (tree_nonneg _ _ _ Hinv current). }
  remember (nadd c step) as new eqn:Hnew.
  assert (Hlow : forall u, cs !! m = Some u -> nltb new u = true).
  { intros u Hu. now apply (improves_Some cs m). }
  assert (Hms : m <> start).
  { intros Heq. pose proof (Hlow _ (eq_ind_r (fun x => cs !! x = _)
                                       (tree_start _ _ _ Hinv) Heq)) as Hlt.
    unfold nle in Hnew0. congruence. }
  assert (Hmc : m <> current).
  { intros Heq. rewrite <- Heq in Hc. pose proof (Hlow c Hc) as Hlt.
    unfold nle in Hcnew. congruence. }
  assert (Havoid : forall j x, follow cf j current = Some x -> x <> m).
  { intros j x Hx ->.
    destruct (chain_cost cf cs j Hinv current c m Hc Hx) as (cm & Hcm & Hle).
    pose proof (Hlow cm Hcm) as Hlt.
    pose proof (nle_trans cm c new Hle Hcnew) as Hle'.
    unfold nle in Hle'. congruence. }
  split; [| now split]. split.
  - rewrite lookup_insert_ne by exact Hms. apply (tree_start _ _ _ Hinv).
  - intros n v. rewrite lookup_insert.
    destruct (decide _);
      [intros Hv; replace v with new by congruence; exact Hnew0 |].
    apply (tree_nonneg _ _ _ Hinv).
  - intros n p. rewrite lookup_insert.
    destruct (decide _) as [<- | Hne].
    + intros Hp. replace p with current by congruence.
      split; [exact Hms |]. split; [exact Hbox |].
      split; [now exists d |]. exists new, c.
      rewrite lookup_insert_eq, lookup_insert_ne by exact Hmc. now split.
    + intros Hp.
      destruct (tree_pred _ _ _ Hinv n p Hp)
        as (Hns & Hnb & Hstep' & cn & cp & Hcn & Hcp & Hle).
      split; [exact Hns |]. split; [exact Hnb |]. split; [exact Hstep' |].
      rewrite lookup_insert_ne by exact Hne. rewrite lookup_insert.
      destruct (decide _) as [<- | Hnp].
      * exists cn, new. split; [exact Hcn |]. split; [reflexivity |].
        apply (nle_trans new cp cn); [| exact Hle].
        apply nltb_nle. now apply Hlow.
      * now exists cn, cp.
  - intros n v. rewrite !lookup_insert.
    destruct (decide _); [eauto |]. apply (tree_recorded _ _ _ Hinv).
  - destruct (tree_reach _ _ _ Hinv current c Hc) as [kc Hkc].
    assert (Hkc' : follow (<[m := current]> cf) kc current = Some start).
    { rewrite follow_insert_avoid; [exact Hkc |].
      intros j x _. apply Havoid. }
    intros n v. rewrite lookup_insert.
    destruct (decide _) as [<- | Hne].
    + intros _. exists (S kc). simpl. now rewrite lookup_insert_eq.
    + intros Hn. destruct (tree_reach _ _ _ Hinv n v Hn) as [k Hk].
      now apply (follow_insert_reach cf start m current kc Hkc' k n).
Qed.

End Tree.

Lemma for_each_Ok_ind_In {S D} (P : S -> Prop) (body : S -> D -> result S)
    (ds : list D) :
  (forall st d st', In d ds -> P st -> body st d = Ok st' -> P st') ->
  forall st st', P st -> for_each body ds st = Ok st' -> P st'.
Proof.
  induction ds as [| d ds IH]; intros Hbody st st' HP Hrun; simpl in Hrun.
  - now injection Hrun as <-.
  - apply bind_Ok_inv in Hrun as (st1 & H1 & Hrun).
    apply (IH (fun s x s' Hx => Hbody s x s' (or_intror Hx)) st1);
      [| exact Hrun].
    now apply (Hbody st d st1 (or_introl eq_refl)).
Qed.

(** A [for] loop whose body establishes [Q d] at item [d], keeps it at the
    later items and keeps [P] throughout, ends with [P] and every [Q d]. *)
Lemma for_each_Ok_each {S D} (P : S -> Prop) (Q : D -> S -> Prop)
    (body : S -> D -> result S) (ds : list D) :
  (forall st d st', In d ds -> P st -> body st d = Ok st' -> P st' /\ Q d st') ->
  (forall st d d' st', In d' ds -> P st -> Q d st -> body st d' = Ok st' ->
                       Q d st') ->
  forall st st', P st -> for_each body ds st = Ok st' ->
                 P st' /\ forall d, In d ds -> Q d st'.
Proof.
  induction ds as [| d ds IH]; intros Hbody Hkeep st st' HP Hrun; simpl in Hrun.
  - injection Hrun as <-. split; [exact HP | intros d []].
  - apply bind_Ok_inv in Hrun as (st1 & H1 & Hrun).
    destruct (Hbody st d st1 (or_introl eq_refl) HP H1) as [HP1 HQ1].
    destruct (IH (fun s x s' Hx => Hbody s x s' (or_intror Hx))
                 (fun s x x' s' Hx => Hkeep s x x' s' (or_intror Hx))
                 st1 st' HP1 Hrun) as [HP' HQ'].
    split; [exact HP' |]. intros x [<- | Hx]; [| now apply HQ'].
    apply (for_each_Ok_ind_In (fun s => P s /\ Q d s) body ds) with (st := st1);
      [| now split | exact Hrun].
    intros s x s' Hx [HPs HQs] Hs. split.
    + now apply (Hbody s x s' (or_intror Hx)).
    + now apply (Hkeep s d x s' (or_intror Hx)).
Qed.

Section Expand.
Context {A : Arith} {L : ArithLaws A}.
Variable grid : Grid.
Variable start : coord.

Lemma in_frontier_push (st : state) (current m n : coord) (new : num) :
  in_frontier st n -> in_frontier (written st current m new) n.
Proof. intros [prio Hin]. exists prio. now right. Qed.

Lemma relax_expand (current : coord) (st st' : state) (d : Z * Z) :
  In d directions ->
  expand_inv grid start current st ->
  relax grid current st d = Ok st' ->
  expand_inv grid start current st'
  /\ edge_settled grid (cost_so_far st') current d.
Proof.
  intros Hd (Htree & Hheap & Hfront) Hrelax.
  pose proof (relax_heap_recorded grid current st st' d Hheap Hrelax) as Hheap'.
  apply relax_cases in Hrelax
      as [[Hbox ->]
         | (Hbox & nb & here & c & step & Hn & Hc & Hh & Hs
            & [[Himp ->] | [Himp ->]])].
  - split; [exact (conj Htree (conj Hheap Hfront)) |].
    intros Hbox'. cbn [fst snd] in *. congruence.
  - split; [exact (conj Htree (conj Hheap Hfront)) |].
    intros _. now exists c, here, nb, step.
  - destruct (write_tree_inv grid start _ _ current d c step here nb
                Htree Hd Hbox Hc Hs Himp) as (Htree' & Hmc & Hms).
    split; [split; [exact Htree' | split; [exact Hheap' |]] |].
    + intros n v. cbn [written cost_so_far]. rewrite lookup_insert.
      destruct (decide _) as [<- | Hne].
      * intros _. right; left. eexists. left. reflexivity.
      * intros Hn'. destruct (Hfront n v Hn') as [-> | [Hin | Hset]];
          [now left | right; left; now apply in_frontier_push |].
        right; right. intros d' Hd'.
        apply edge_settled_write; [congruence | exact Himp | now apply Hset].
    + intros _. exists c, here, nb, step. cbn [written cost_so_far].
      rewrite lookup_insert_ne by exact Hmc. repeat (split; [assumption |]).
      unfold improves. rewrite lookup_insert_eq. apply nltb_irrefl.
Qed.

Lemma relax_edge_kept (current : coord) (st st' : state) (d0 d : Z * Z) :
  In d directions ->
  expand_inv grid start current st ->
  edge_settled grid (cost_so_far st) current d0 ->
  relax grid current st d = Ok st' ->
  edge_settled grid (cost_so_far st') current d0.
Proof.
  intros Hd (Htree & Hheap & Hfront) Hedge Hrelax.
  apply relax_cases in Hrelax
      as [[Hbox ->]
         | (Hbox & nb & here & c & step & Hn & Hc & Hh & Hs
            & [[Himp ->] | [Himp ->]])]; try exact Hedge.
  destruct (write_tree_inv grid start _ _ current d c step here nb
              Htree Hd Hbox Hc Hs Himp) as (_ & Hmc & _).
  cbn [written cost_so_far].
  apply edge_settled_write; [congruence | exact Himp | exact Hedge].
Qed.

(** One iteration keeps the invariant of the loop. *)
Lemma iteration_search_inv (target : coord) (st st' : state) :
  search_inv grid start st ->
  iteration grid target st = Next st' ->
  search_inv grid start st'.
Proof.
  intros (Htree & Hheap & Hfront). unfold iteration.
  destruct (heappop (open_set st)) as [[[prio current] rest] |] eqn:Hpop;
    [| discriminate].
  destruct (decide (current = target)) as [Heq | Hnt]; [discriminate |].
  apply heappop_Permutation in Hpop.
  set (popped := {| open_set := rest |}).
  destruct (for_each (relax grid current) directions popped) as [s |] eqn:Hfor;
    [| discriminate].
  intros [= <-].
  assert (Hheap0 : Forall (fun e : entry => is_Some (cost_so_far st !! e.2))
                     ((prio, current) :: rest)).
  { unfold heap_recorded in Hheap. now rewrite Hpop in Hheap. }
  apply Forall_cons in Hheap0 as [Hcur Hrest]. cbn [snd] in Hcur.
  assert (Hpopped : expand_inv grid start current popped).
  { split; [exact Htree |]. split; [now split |].
    intros n v Hn. destruct (Hfront n v Hn) as [[p Hin] | Hset]; [| now right; right].
    apply list_elem_of_In in Hin. rewrite Hpop in Hin.
    apply elem_of_cons in Hin as [[= _ ->] | Hin]; [now left |].
    right; left. exists p. now apply list_elem_of_In. }
  assert (Hres : expand_inv grid start current s
                 /\ forall d, In d directions ->
                              edge_settled grid (cost_so_far s) current d).
  { apply (for_each_Ok_each (expand_inv grid start current)
             (fun d x => edge_settled grid (cost_so_far x) current d)
             (relax grid current) directions) with (st := popped);
      [| | exact Hpopped | exact Hfor].
    - intros x d x' Hd Hx Hrelax. now apply (relax_expand current x x' d).
    - intros x d d' x' Hd' Hx Hedge Hrelax.
      now apply (relax_edge_kept current x x' d d'). }
  destruct Hres as [(Htree' & [Hheap' Hcur'] & Hfront') Hedges].
  split; [exact Htree' |]. split; [exact Hheap' |].
  intros n v Hn. destruct (Hfront' n v Hn) as [-> | [Hin | Hset]];
    [right; exact Hedges | now left | now right].
Qed.

(** The state from which a returning search takes its answer. *)
Lemma search_loop_Ok_inv (target : coord) (fuel : nat) :
  forall st cf cs,
    search_inv grid start st ->
    search_loop fuel grid target st = Some (Ok (cf, cs)) ->
    exists st',
      search_inv grid start st'
      /\ cf = came_from st' /\ cs = cost_so_far st'
      /\ (open_set st' = [] \/ in_frontier st' target).
Proof.
  induction fuel as [| fuel IH]; intros st cf cs Hinv Hrun; [discriminate |].
  rewrite search_loop_S in Hrun.
  destruct (iteration grid target st) as [st1 | r] eqn:Hit.
  - apply (IH st1); [| exact Hrun]. now apply (iteration_search_inv target st).
  - injection Hrun as ->. exists st. unfold iteration in Hit.
    destruct (heappop (open_set st)) as [[[prio current] rest] |] eqn:Hpop.
    + destruct (decide (current = target)) as [-> | Hne].
      * injection Hit as <- <-. repeat (split; [easy |]). right. exists prio.
        apply heappop_Permutation in Hpop. apply list_elem_of_In.
        rewrite Hpop. now left.
      * destruct (for_each _ _ _); discriminate.
    + injection Hit as <- <-. repeat (split; [easy |]). left.
      now apply heappop_None.
Qed.

Lemma initial_search_inv : search_inv grid start (initial start).
Proof.
  split; [apply initial_tree_inv | split].
  - unfold heap_recorded, initial, heappush. cbn [open_set cost_so_far].
    constructor; [| constructor]. cbn [snd]. rewrite lookup_singleton_eq. eauto.
  - intros n v Hn. left. cbn [initial cost_so_far] in Hn.
    apply lookup_singleton_Some in Hn as [<- _]. exists (nofZ 0). now left.
Qed.

(** What holds of the two maps a search returns. *)
Lemma find_fastest_path_Ok_inv (target : coord) (fuel : nat)
    (cf : gmap coord coord) (cs : gmap coord num) :
  find_fastest_path fuel grid start target = Some (Ok (cf, cs)) ->
  tree_inv start cf cs
  /\ (is_Some (cs !! target)
      \/ forall n v, cs !! n = Some v -> settled grid cs n).
Proof.
  intros Hrun.
  destruct (search_loop_Ok_inv target fuel (initial start) cf cs
              initial_search_inv Hrun)
    as (st' & (Htree & Hheap & Hfront) & -> & -> & Hend).
  split; [exact Htree |]. destruct Hend as [Hempty | [prio Hin]].
  - right. intros n v Hn. destruct (Hfront n v Hn) as [[p Hp] | Hset];
      [| exact Hset].
    rewrite Hempty in Hp. destruct Hp.
  - left. unfold heap_recorded in Hheap. rewrite Forall_forall in Hheap.
    apply (Hheap (prio, target)). now apply list_elem_of_In.
Qed.

End Expand.

(** ** What a returned search guarantees *)



(** The path that [reconstruct_path] returns along a chain. *)
Lemma rev_trail_path (cf : gmap coord coord) (start target : coord) (k : nat) :
  follow cf k target = Some start ->
  length (rev (trail cf k target)) = S k
  /\ head (rev (trail cf k target)) = Some start
  /\ last (rev (trail cf k target)) = Some target
  /\ linked (fun a b => cf !! b = Some a) (rev (trail cf k target)).
Proof.
  intros Hf. split; [| split; [| split]].
  - rewrite length_rev. now apply (trail_length cf k target start).
  - rewrite head_rev. now apply trail_last.
  - rewrite last_rev. destruct k; reflexivity.
  - apply linked_rev. now apply (trail_linked cf k target start).
Qed.

(** The cells of the box are connected by steps in the four directions: a
    set of coordinates closed under steps into the box contains the whole
    box as soon as it contains one of its cells. *)
Lemma box_line (R : coord -> Prop) (d : Z * Z) (n : coord) :
  In d directions ->
  (forall c, R c -> in_box (c.1 + d.1) (c.2 + d.2) = true ->
             R (c.1 + d.1, c.2 + d.2)) ->
  R n ->
  forall k : nat,
    (forall j : nat, (j <= k)%nat ->
                     in_box (n.1 + Z.of_nat j * d.1) (n.2 + Z.of_nat j * d.2) = true) ->
    R (n.1 + Z.of_nat k * d.1, n.2 + Z.of_nat k * d.2).
Proof.
  intros Hd Hstep Hn. induction k as [| k IH]; intros Hline.
  - replace (n.1 + Z.of_nat 0 * d.1) with n.1 by lia.
    replace (n.2 + Z.of_nat 0 * d.2) with n.2 by lia. now destruct n.
  - assert (IH' := IH (fun j Hj => Hline j (Nat.le_trans _ _ _ Hj (Nat.le_succ_diag_r k)))).
    specialize (Hstep _ IH'). cbn [fst snd] in Hstep.
    replace (n.1 + Z.of_nat (S k) * d.1) with (n.1 + Z.of_nat k * d.1 + d.1) by lia.
    replace (n.2 + Z.of_nat (S k) * d.2) with (n.2 + Z.of_nat k * d.2 + d.2) by lia.
    apply Hstep. specialize (Hline (S k) (Nat.le_refl _)).
    replace (n.1 + Z.of_nat k * d.1 + d.1) with (n.1 + Z.of_nat (S k) * d.1) by lia.
    replace (n.2 + Z.of_nat k * d.2 + d.2) with (n.2 + Z.of_nat (S k) * d.2) by lia.
    exact Hline.
Qed.

Lemma box_connected (R : coord -> Prop) :
  (forall c d, R c -> In d directions ->
               in_box (c.1 + d.1) (c.2 + d.2) = true ->
               R (c.1 + d.1, c.2 + d.2)) ->
  forall s t, R s -> in_box s.1 s.2 = true -> in_box t.1 t.2 = true -> R t.
Proof.
  intros Hstep [sx sy] [tx ty] Hs Hsb Htb. cbn [fst snd] in *.
  unfold in_box, GRID_SIZE in Hsb, Htb.
  assert (Hx : R (tx, sy)).
  { destruct (Z_le_dec sx tx) as [Hle | Hgt].
    - pose proof (box_line R (1, 0) (sx, sy) (or_intror (or_introl eq_refl))
                    (fun c Hc => Hstep c (1, 0) Hc (or_intror (or_introl eq_refl)))
                    Hs (Z.to_nat (tx - sx))) as Hline.
      cbn [fst snd] in Hline.
      replace (sx + Z.of_nat (Z.to_nat (tx - sx)) * 1) with tx in Hline by lia.
      replace (sy + Z.of_nat (Z.to_nat (tx - sx)) * 0) with sy in Hline by lia.
      apply Hline. intros j Hj. unfold in_box, GRID_SIZE. lia.
    - pose proof (box_line R (-1, 0) (sx, sy) (or_introl eq_refl)
                    (fun c Hc => Hstep c (-1, 0) Hc (or_introl eq_refl))
                    Hs (Z.to_nat (sx - tx))) as Hline.
      cbn [fst snd] in Hline.
      replace (sx + Z.of_nat (Z.to_nat (sx - tx)) * -1) with tx in Hline by lia.
      replace (sy + Z.of_nat (Z.to_nat (sx - tx)) * 0) with sy in Hline by lia.
      apply Hline. intros j Hj. unfold in_box, GRID_SIZE. lia. }
  destruct (Z_le_dec sy ty) as [Hle | Hgt].
  - pose proof (box_line R (0, 1) (tx, sy)
                  (or_intror (or_intror (or_intror (or_introl eq_refl))))
                  (fun c Hc => Hstep c (0, 1) Hc
                                 (or_intror (or_intror (or_intror (or_introl eq_refl)))))
                  Hx (Z.to_nat (ty - sy))) as Hline.
    cbn [fst snd] in Hline.
    replace (tx + Z.of_nat (Z.to_nat (ty - sy)) * 0) with tx in Hline by lia.
    replace (sy + Z.of_nat (Z.to_nat (ty - sy)) * 1) with ty in Hline by lia.
    apply Hline. intros j Hj. unfold in_box, GRID_SIZE. lia.
  - pose proof (box_line R (0, -1) (tx, sy)
                  (or_intror (or_intror (or_introl eq_refl)))
                  (fun c Hc => Hstep c (0, -1) Hc
                                 (or_intror (or_intror (or_introl eq_refl))))
                  Hx (Z.to_nat (sy - ty))) as Hline.
    cbn [fst snd] in Hline.
    replace (tx + Z.of_nat (Z.to_nat (sy - ty)) * 0) with tx in Hline by lia.
    replace (sy + Z.of_nat (Z.to_nat (sy - ty)) * -1) with ty in Hline by lia.
    apply Hline. intros j Hj. unfold in_box, GRID_SIZE. lia.
Qed.

Section Results.
Context {A : Arith} {L : ArithLaws A}.
Variable grid : Grid.
Variable start : coord.

(** In a tree of predecessor links the chain from a recorded coordinate
    meets the start only at its end. *)
Lemma tree_chain_first (cf : gmap coord coord) (cs : gmap coord num)
    (n : coord) (k : nat) :
  tree_inv start cf cs ->
  follow cf k n = Some start ->
  forall j c, (j < k)%nat -> follow cf j n = Some c -> c <> start.
Proof.
  intros Hinv Hk j c Hj Hc ->.
  replace k with (j + S (k - S j))%nat in Hk by lia.
  rewrite follow_add, Hc in Hk. simpl in Hk.
  now rewrite (tree_start_no_pred start cf cs Hinv) in Hk.
Qed.



(** When every recorded coordinate is settled and the start is in the box,
    the whole box is recorded. *)
Lemma settled_box_recorded (cf : gmap coord coord) (cs : gmap coord num)
    (target : coord) :
  tree_inv start cf cs ->
  (forall n v, cs !! n = Some v -> settled grid cs n) ->
  in_box start.1 start.2 = true -> in_box target.1 target.2 = true ->
  is_Some (cs !! target).
Proof.
  intros Hinv Hset Hsb Htb.
  apply (box_connected (fun c => is_Some (cs !! c))) with (s := start);
    [| rewrite (tree_start _ _ _ Hinv); eauto | exact Hsb | exact Htb].
  intros c d [v Hv] Hd Hbox.
  destruct (Hset c v Hv d Hd Hbox) as (c0 & here & nb & step & _ & _ & _ & _ & Hno).
  apply improves_false_inv in Hno as (u & Hu & _). now exists u.
Qed.

(** On a grid that covers the box, with known terrains and an in-bounds
    start, the search returns its two maps. *)
Lemma search_returns (target : coord) :
  GRID_SIZE <= nrows grid -> GRID_SIZE <= ncols grid ->
  in_bounds grid start ->
  (forall i j, 0 <= terrain (cell_at grid i j) < 3) ->
  exists cf cs,
    forall fuel, (2 + 2 * length (candidates start) <= fuel)%nat ->
                 find_fastest_path fuel grid start target = Some (Ok (cf, cs)).
Proof.
  intros Hrows Hcols Hstart Hterrain.
  set (N := (2 + 2 * length (candidates start))%nat).
  assert (Hpot : (potential grid start (initial start) < N)%nat).
  { unfold potential, initial, heappush, N. cbn [open_set cost_so_far length].
    assert (Hc : forall (f : list coord -> bool) l, (count f l <= length l)%nat).
    { intros f l. induction l as [| x l IH]; simpl; [lia |].
      destruct (f x); lia. }
    specialize (Hc (open_route grid start {[start := nofZ 0]}) (candidates start)).
    lia. }
  destruct (search_loop_terminates grid start target N (initial start)
              (initial_costs_backed grid start) Hpot) as [r Hr].
  destruct r as [[cf cs] | [|]].
  - exists cf, cs. intros fuel Hfuel. unfold find_fastest_path.
    now apply (search_loop_more_fuel grid target N).
  - exfalso.
    now apply (find_fastest_path_in_bounds grid Hrows Hcols start target N).
  - exfalso.
    now apply (find_fastest_path_recorded grid Hterrain start target N).
Qed.

End Results.






Lemma real_flat_returns (start target : coord) :
  @in_bounds real_arith real_flat start ->
  exists cf cs,
    @find_fastest_path real_arith (ample start) real_flat start target
    = Some (Ok (cf, cs)).
Proof.
  intros Hstart.
  destruct (@search_returns real_arith real_laws real_flat start target)
    as (cf & cs & Hrun); try exact Hstart.
  - apply Z.le_refl.
  - apply Z.le_refl.
  - intros i j. simpl. lia.
  - exists cf, cs. apply Hrun. apply Nat.le_refl.
Qed.

Lemma origin_in_real_flat : @in_bounds real_arith real_flat (0, 0).
Proof. unfold in_bounds, real_flat, GRID_SIZE. simpl. lia. Qed.

Section ResultWitnesses.
#[local] Existing Instance real_arith.






End ResultWitnesses.

(** ** Grid generation *)

Lemma for_each_total {S D} (P : S -> Prop) (body : S -> D -> result S)
    (ds : list D) :
  (forall st d, In d ds -> P st -> exists st', body st d = Ok st' /\ P st') ->
  forall st, P st -> exists st', for_each body ds st = Ok st' /\ P st'.
Proof.
  induction ds as [| d ds IH]; intros Hbody st HP; simpl; [eauto |].
  destruct (Hbody st d (or_introl eq_refl) HP) as (st1 & -> & HP1). simpl.
  apply IH; [| exact HP1]. intros s x Hx. apply Hbody. now right.
Qed.

Lemma In_seqZ (n x : Z) : In x (seqZ 0 n) <-> 0 <= x < n.
Proof. rewrite <- list_elem_of_In, elem_of_seqZ. lia. Qed.

Lemma random_choice_terrain (r : nat) : 0 <= random_choice [0; 1; 2] r < 3.
Proof.
  unfold random_choice. cbn [length].
  pose proof (Nat.mod_upper_bound r 3 ltac:(lia)) as Hr.
  destruct (r mod 3)%nat as [| [| [| k]]]; simpl; lia.
Qed.

Lemma int32_small (x : Z) : 0 <= x < 2 ^ 31 -> int32 x = x.
Proof.
  intros Hx. unfold int32. rewrite Z.mod_small; lia.
Qed.

Section GenerateProps.
Context {A : Arith}.
Variable to_single : num -> num.
Variable choice_draw : Z -> Z -> nat.
Variable uniform_draw : Z -> Z -> num.
Variable n : Z.

(** A property of cells that every generated cell has. *)
Variable K : Cell -> Prop.
Hypothesis K_generated :
  forall x y, K (generated_cell to_single choice_draw uniform_draw n x y).

Local Abbreviation well_shaped :=
  (fun g : Grid => nrows g = n /\ ncols g = n /\ forall i j, K (cell_at g i j)).
Local Abbreviation filled := (holds_generated to_single choice_draw uniform_draw n).

Lemma store_cell (g : Grid) (x y : Z) :
  well_shaped g -> 0 <= x < n -> 0 <= y < n ->
  exists g',
    grid_set g x y (generated_cell to_single choice_draw uniform_draw n x y)
    = Ok g'
    /\ well_shaped g' /\ filled x y g'
    /\ forall a b, filled a b g -> filled a b g'.
Proof.
  intros (Hrows & Hcols & Hknown) Hx Hy. unfold grid_set, axis_index.
  rewrite Hrows, Hcols.
  replace ((0 <=? x) && (x <? n)) with true by (symmetry; lia).
  replace ((0 <=? y) && (y <? n)) with true by (symmetry; lia).
  eexists. split; [reflexivity |]. split; [| split].
  - split; [reflexivity | split; [reflexivity |]]. intros i j. cbn [cell_at].
    destruct (decide _); [apply K_generated | apply Hknown].
  - unfold holds_generated. cbn [cell_at].
    destruct (decide _) as [_ | Hne]; [reflexivity | exfalso; now apply Hne].
  - intros a b Hab. unfold holds_generated in *. cbn [cell_at].
    destruct (decide _) as [[-> ->] | _]; [reflexivity | exact Hab].
Qed.

Lemma generate_row_spec (g : Grid) (x : Z) :
  well_shaped g -> 0 <= x < n ->
  exists g',
    generate_row to_single choice_draw uniform_draw n x g = Ok g'
    /\ well_shaped g'
    /\ (forall y, 0 <= y < n -> filled x y g')
    /\ forall a b, filled a b g -> filled a b g'.
Proof.
  intros Hg Hx. unfold generate_row.
  set (body := fun (g : Grid) (y : Z) =>
         grid_set g x y (generated_cell to_single choice_draw uniform_draw n x y)).
  destruct (for_each_total well_shaped body (seqZ 0 n)) with (st := g)
    as (g' & Hrun & Hg'); [| exact Hg |].
  { intros s y Hy Hs. apply In_seqZ in Hy.
    destruct (store_cell s x y Hs Hx Hy) as (s' & Hs' & Hshape & _).
    now exists s'. }
  exists g'. split; [exact Hrun |]. split; [exact Hg' |]. split.
  - destruct (for_each_Ok_each well_shaped (fun y s => filled x y s) body
                (seqZ 0 n)) with (st := g) (st' := g') as [_ Hall];
      try assumption.
    + intros s y s' Hy Hs Hbody. apply In_seqZ in Hy.
      destruct (store_cell s x y Hs Hx Hy) as (s2 & Hs2 & Hshape & Hfill & _).
      assert (s2 = s') by (unfold body in Hbody; congruence). subst s2.
      now split.
    + intros s y y' s' Hy' Hs Hfill Hbody. apply In_seqZ in Hy'.
      destruct (store_cell s x y' Hs Hx Hy') as (s2 & Hs2 & _ & _ & Hkeep).
      assert (s2 = s') by (unfold body in Hbody; congruence). subst s2.
      now apply Hkeep.
    + intros y Hy. apply Hall. now apply In_seqZ.
  - intros a b Hab.
    apply (for_each_Ok_ind_In (fun s => well_shaped s /\ filled a b s) body
             (seqZ 0 n)) with (st := g) (st' := g'); [| now split | exact Hrun].
    intros s y s' Hy [Hs Hfill] Hbody. apply In_seqZ in Hy.
    destruct (store_cell s x y Hs Hx Hy) as (s2 & Hs2 & Hshape & _ & Hkeep).
    assert (s2 = s') by (unfold body in Hbody; congruence). subst s2.
    split; [exact Hshape | now apply Hkeep].
Qed.

Lemma fill_grid_spec (g0 : Grid) :
  well_shaped g0 ->
  exists g,
    fill_grid to_single choice_draw uniform_draw n g0 = Ok g
    /\ well_shaped g
    /\ forall x y, 0 <= x < n -> 0 <= y < n -> filled x y g.
Proof.
  intros Hg0. unfold fill_grid.
  set (body := fun (g : Grid) (x : Z) =>
         generate_row to_single choice_draw uniform_draw n x g).
  destruct (for_each_total well_shaped body (seqZ 0 n)) with (st := g0)
    as (g & Hrun & Hg); [| exact Hg0 |].
  { intros s x Hx Hs. apply In_seqZ in Hx.
    destruct (generate_row_spec s x Hs Hx) as (s' & Hs' & Hshape & _).
    now exists s'. }
  exists g. split; [exact Hrun |]. split; [exact Hg |].
  destruct (for_each_Ok_each well_shaped
              (fun x s => forall y, 0 <= y < n -> filled x y s) body
              (seqZ 0 n)) with (st := g0) (st' := g) as [_ Hall];
    try assumption.
  - intros s x s' Hx Hs Hbody. apply In_seqZ in Hx.
    destruct (generate_row_spec s x Hs Hx) as (s2 & Hs2 & Hshape & Hfill & _).
    assert (s2 = s') by (unfold body in Hbody; congruence). subst s2.
    now split.
  - intros s x x' s' Hx' Hs Hfill Hbody y Hy. apply In_seqZ in Hx'.
    destruct (generate_row_spec s x' Hs Hx') as (s2 & Hs2 & _ & _ & Hkeep).
    assert (s2 = s') by (unfold body in Hbody; congruence). subst s2.
    apply Hkeep. now apply Hfill.
  - intros x y Hx Hy. apply Hall; [now apply In_seqZ | exact Hy].
Qed.

End GenerateProps.


(** X8: on an [n] by [n] array, whatever it holds, with [n] below [2 ^ 31],
    the two loops of [generate_grid] raise nothing and leave an [n] by [n]
    array in which reading cell [(x, y)] succeeds and gives the coordinates
    [(x, y)], the terrain code chosen for the cell, which is 0, 1 or 2, and
    the height [uniform * (x + y) / (n * 2)] as stored; [generate_grid] runs
    these loops on the array of [zeros]. *)
Theorem generate_grid_contents {A : Arith} (to_single : num -> num)
    (choice_draw : Z -> Z -> nat) (uniform_draw : Z -> Z -> num) (n : Z)
    (g0 : Grid) :
  0 <= n < 2 ^ 31 ->
  nrows g0 = n -> ncols g0 = n ->
  (exists g,
     fill_grid to_single choice_draw uniform_draw n g0 = Ok g
     /\ nrows g = n /\ ncols g = n
     /\ forall x y, 0 <= x < n -> 0 <= y < n ->
          exists cell,
            grid_get g x y = Ok cell
            /\ coordinates cell = (x, y)
            /\ terrain cell = random_choice [0; 1; 2] (choice_draw x y)
            /\ 0 <= terrain cell < 3
            /\ height cell
               = to_single (ndiv (nmul (uniform_draw x y) (nofZ (x + y)))
                                 (nofZ (n * 2))))
  /\ generate_grid to_single choice_draw uniform_draw n
     = match fill_grid to_single choice_draw uniform_draw n (zeros n n) with
       | Ok g => Generated g
       | Raise e => GenRaise e
       end.
Proof.
  intros [Hn Hmax] Hrows0 Hcols0. split.
  - destruct (fill_grid_spec to_single choice_draw uniform_draw n
                (fun _ => True) (fun _ _ => I) g0)
      as (g & Hrun & (Hrows & Hcols & _) & Hfilled).
    { split; [exact Hrows0 | split; [exact Hcols0 | easy]]. }
    exists g. split; [exact Hrun |]. split; [exact Hrows |]. split; [exact Hcols |].
    intros x y Hx Hy. exists (cell_at g x y).
    split; [apply grid_get_in_bounds; lia |].
    rewrite (Hfilled x y Hx Hy). unfold generated_cell.
    cbn [coordinates terrain height].
    rewrite !int32_small by lia.
    split; [reflexivity |]. split; [reflexivity |].
    split; [apply random_choice_terrain | reflexivity].
  - unfold generate_grid. now replace (n <? 0) with false by (symmetry; lia).
Qed.

Lemma generate_grid_contents_witness :
  exists g : @Grid float_arith,
    @fill_grid float_arith (fun h => h) (fun x y => Z.to_nat (x + 2 * y))
      (fun x y => float_ofZ 0) 3 (zeros 3 3) = Ok g
    /\ nrows g = 3 /\ ncols g = 3.
Proof.
  destruct (@generate_grid_contents float_arith (fun h => h)
              (fun x y => Z.to_nat (x + 2 * y)) (fun x y => float_ofZ 0) 3
              (@zeros float_arith 3 3))
    as ((g & Hrun & Hrows & Hcols & _) & _); [lia | reflexivity | reflexivity |].
  now exists g.
Defined.



(** ** Every returned path follows the predecessor map *)

Lemma reconstruct_loop_Ok_inv (cf : gmap coord coord) (start : coord)
    (fuel : nat) :
  forall current acc path,
    reconstruct_loop fuel cf start current acc = Some (Ok path) ->
    exists k,
      (k < fuel)%nat
      /\ follow cf k current = Some start
      /\ path = rev (acc ++ trail cf k current).
Proof.
  induction fuel as [| fuel IH]; intros current acc path Hrun; [discriminate |].
  simpl in Hrun. destruct (decide (current = start)) as [-> | Hne].
  - injection Hrun as <-. exists O. split; [lia |]. now split.
  - destruct (cf !! current) as [p |] eqn:Hp; [| discriminate].
    destruct (IH p (acc ++ [current]) path Hrun) as (k & Hk & Hf & ->).
    exists (S k). split; [lia |]. split.
    + now rewrite (follow_S_inv _ _ _ _ Hp).
    + rewrite (trail_S _ _ _ _ Hp). now rewrite <- app_assoc.
Qed.

(** X10: whatever the predecessor map, a path that [reconstruct_path]
    returns begins with [start], ends with [target], and each of its
    coordinates is the recorded predecessor of the next; its length is the
    number of links from [target] to [start] plus one, and at most the
    fuel. *)
Theorem reconstruct_path_sound (came_from : gmap coord coord)
    (start target : coord) (fuel : nat) (path : list coord) :
  reconstruct_path fuel came_from start target = Some (Ok path) ->
  exists k,
    (k < fuel)%nat
    /\ follow came_from k target = Some start
    /\ length path = S k
    /\ head path = Some start
    /\ last path = Some target
    /\ linked (fun a b => came_from !! b = Some a) path.
Proof.
  unfold reconstruct_path. intros Hrun.
  destruct (reconstruct_loop_Ok_inv came_from start fuel target [] path Hrun)
    as (k & Hk & Hf & ->).
  exists k. split; [exact Hk |]. split; [exact Hf |].
  exact (rev_trail_path came_from start target k Hf).
Qed.

Lemma reconstruct_path_sound_witness :
  exists k,
    (k < 5)%nat
    /\ follow (<[(0, 2) := (0, 1)]> (<[(0, 1) := (0, 0)]> ∅)) k (0, 2)
       = Some (0, 0)
    /\ length [(0, 0); (0, 1); ((0, 2) : coord)] = S k.
Proof.
  assert (Hrun : reconstruct_path 5
                   (<[(0, 2) := (0, 1)]> (<[(0, 1) := (0, 0)]> ∅)) (0, 0) (0, 2)
                 = Some (Ok [(0, 0); (0, 1); (0, 2)]))
    by (vm_compute; reflexivity).
  destruct (reconstruct_path_sound
              (<[(0, 2) := (0, 1)]> (<[(0, 1) := (0, 0)]> ∅)) (0, 0) (0, 2) 5
              [(0, 0); (0, 1); (0, 2)] Hrun)
    as (k & Hk & Hf & Hlen & _).
  exists k. exact (conj Hk (conj Hf Hlen)).
Defined.

(** ** The recorded cost bounds the cost of the returned path *)

Lemma real_nadd_mono_left : nadd_mono_left real_arith.
Proof.
  intros a b c. unfold nle. simpl. rewrite !Rltb_false. lra.
Qed.

Section Paid.
Context {A : Arith} {L : ArithLaws A}.
Hypothesis add_left : nadd_mono_left A.
Variable grid : Grid.
Variable start : coord.

Lemma relax_links_paid (current : coord) (st st' : state) (d : Z * Z) :
  In d directions ->
  expand_inv grid start current st ->
  links_paid grid (came_from st) (cost_so_far st) ->
  relax grid current st d = Ok st' ->
  links_paid grid (came_from st') (cost_so_far st').
Proof.
  intros Hd (Htree & _ & _) Hpaid Hrelax.
  apply relax_cases in Hrelax
      as [[Hbox ->]
         | (Hbox & nb & here & c & step & Hn & Hc & Hh & Hs
            & [[Himp ->] | [Himp ->]])]; try exact Hpaid.
  destruct (write_tree_inv grid start _ _ current d c step here nb
              Htree Hd Hbox Hc Hs Himp) as (_ & Hmc & _).
  intros n p. cbn [written came_from cost_so_far]. rewrite lookup_insert.
  destruct (decide _) as [<- | Hne].
  - intros Hp. replace p with current by congruence.
    exists here, nb, step, (nadd c step), c.
    rewrite lookup_insert_eq, lookup_insert_ne by exact Hmc.
    repeat (split; [assumption || reflexivity |]). apply nle_refl.
  - intros Hp.
    destruct (Hpaid n p Hp) as (h & b & s & cn & cp & Hh' & Hb & Hs' & Hcn & Hcp & Hle).
    rewrite lookup_insert_ne by exact Hne. rewrite lookup_insert.
    destruct (decide _) as [<- | Hnp].
    + exists h, b, s, cn, (nadd c step).
      repeat (split; [assumption || reflexivity |]).
      apply (nle_trans _ (nadd cp s)); [| exact Hle].
      apply add_left. apply nltb_nle. now apply (improves_Some _ _ _ _ Himp).
    + now exists h, b, s, cn, cp.
Qed.

(** The state in which the neighbours of a popped coordinate are relaxed. *)
Lemma popped_expand_inv (st : state) (prio : num) (current : coord)
    (rest : list entry) :
  search_inv grid start st ->
  heappop (open_set st) = Some ((prio, current), rest) ->
  expand_inv grid start current
    {| open_set := rest; came_from := came_from st;
       cost_so_far := cost_so_far st |}.
Proof.
  intros (Htree & Hheap & Hfront) Hpop. apply heappop_Permutation in Hpop.
  assert (Hheap0 : Forall (fun e : entry => is_Some (cost_so_far st !! e.2))
                     ((prio, current) :: rest)).
  { unfold heap_recorded in Hheap. now rewrite Hpop in Hheap. }
  apply Forall_cons in Hheap0 as [Hcur Hrest]. cbn [snd] in Hcur.
  split; [exact Htree |]. split; [now split |].
  intros n v Hn. destruct (Hfront n v Hn) as [[p Hin] | Hset]; [| now right; right].
  apply list_elem_of_In in Hin. rewrite Hpop in Hin.
  apply elem_of_cons in Hin as [[= _ ->] | Hin]; [now left |].
  right; left. exists p. now apply list_elem_of_In.
Qed.

Lemma iteration_links_paid (target : coord) (st st' : state) :
  search_inv grid start st ->
  links_paid grid (came_from st) (cost_so_far st) ->
  iteration grid target st = Next st' ->
  links_paid grid (came_from st') (cost_so_far st').
Proof.
  intros Hinv Hpaid. unfold iteration.
  destruct (heappop (open_set st)) as [[[prio current] rest] |] eqn:Hpop;
    [| discriminate].
  destruct (decide (current = target)) as [Heq | Hnt]; [discriminate |].
  pose proof (popped_expand_inv st prio current rest Hinv Hpop) as Hpopped.
  set (popped := {| open_set := rest |}) in *.
  destruct (for_each (relax grid current) directions popped) as [s |] eqn:Hfor;
    [| discriminate].
  intros [= <-].
  apply (for_each_Ok_ind_In
           (fun x => expand_inv grid start current x
                     /\ links_paid grid (came_from x) (cost_so_far x))
           (relax grid current) directions) with (st := popped);
    [| now split | exact Hfor].
  intros x d x' Hd [Hx Hpx] Hrelax. split.
  - now apply (relax_expand grid start current x x' d).
  - now apply (relax_links_paid current x x' d).
Qed.

Lemma search_loop_links_paid (target : coord) (fuel : nat) :
  forall st cf cs,
    search_inv grid start st ->
    links_paid grid (came_from st) (cost_so_far st) ->
    search_loop fuel grid target st = Some (Ok (cf, cs)) ->
    links_paid grid cf cs.
Proof.
  induction fuel as [| fuel IH]; intros st cf cs Hinv Hpaid Hrun; [discriminate |].
  rewrite search_loop_S in Hrun.
  destruct (iteration grid target st) as [st1 | r] eqn:Hit.
  - apply (IH st1); [| | exact Hrun].
    + now apply (iteration_search_inv grid start target st).
    + now apply (iteration_links_paid target st).
  - injection Hrun as ->. unfold iteration in Hit.
    destruct (heappop (open_set st)) as [[[prio current] rest] |].
    + destruct (decide (current = target)).
      * now injection Hit as <- <-.
      * destruct (for_each _ _ _); discriminate.
    + now injection Hit as <- <-.
Qed.

Lemma walk_cost_snoc (l : list coord) :
  forall acc here w p n a b step,
    walk_cost grid acc here l = Ok w ->
    last (here :: l) = Some p ->
    grid_get grid p.1 p.2 = Ok a ->
    grid_get grid n.1 n.2 = Ok b ->
    calculate_cost a b grid = Ok step ->
    walk_cost grid acc here (l ++ [n]) = Ok (nadd w step).
Proof.
  induction l as [| x l IH]; intros acc here w p n a b step Hw Hlast Ha Hb Hs.
  - simpl in *. injection Hw as <-. injection Hlast as <-.
    rewrite Ha. simpl. rewrite Hb. simpl. now rewrite Hs.
  - simpl in Hw |- *.
    apply bind_Ok_inv in Hw as (a0 & Ha0 & Hw). rewrite Ha0. simpl.
    apply bind_Ok_inv in Hw as (b0 & Hb0 & Hw). rewrite Hb0. simpl.
    apply bind_Ok_inv in Hw as (s0 & Hs0 & Hw). rewrite Hs0. simpl.
    apply (IH _ x w p n a b step Hw); assumption.
Qed.

(** Walking the chain from the start costs no more than what is recorded at
    its end. *)
Lemma chain_walk_cost (cf : gmap coord coord) (cs : gmap coord num) (k : nat) :
  tree_inv start cf cs ->
  links_paid grid cf cs ->
  forall n v,
    follow cf k n = Some start -> cs !! n = Some v ->
    exists w,
      walk_cost grid (nofZ 0) start (tail (rev (trail cf k n))) = Ok w
      /\ nle w v.
Proof.
  intros Htree Hpaid. induction k as [| k IH]; intros n v Hf Hv.
  - simpl in Hf. injection Hf as ->. simpl. exists (nofZ 0).
    split; [reflexivity | now apply (tree_nonneg _ _ _ Htree start)].
  - destruct (cf !! n) as [p |] eqn:Hp; [| simpl in Hf; now rewrite Hp in Hf].
    rewrite (follow_S_inv _ _ _ _ Hp) in Hf. rewrite (trail_S _ _ _ _ Hp).
    destruct (Hpaid n p Hp)
      as (here & nb & step & cn & cp & Hh & Hn & Hs & Hcn & Hcp & Hle).
    assert (Hcv : Some cn = Some v) by exact (eq_trans (eq_sym Hcn) Hv).
    injection Hcv as ->.
    destruct (IH p cp Hf Hcp) as (w & Hw & Hwle).
    destruct (rev_trail_path cf start p k Hf) as (_ & Hhead & Hlast & _).
    change (rev (n :: trail cf k p)) with (rev (trail cf k p) ++ [n]).
    destruct (rev (trail cf k p)) as [| s l] eqn:Hrev; [discriminate |].
    simpl in Hhead. injection Hhead as ->. simpl in Hw |- *.
    exists (nadd w step). split.
    + now apply (walk_cost_snoc l (nofZ 0) start w p n here nb step).
    + apply (nle_trans _ (nadd cp step)); [now apply add_left | exact Hle].
Qed.

Lemma find_fastest_path_links_paid (target : coord) (fuel : nat)
    (cf : gmap coord coord) (cs : gmap coord num) :
  find_fastest_path fuel grid start target = Some (Ok (cf, cs)) ->
  links_paid grid cf cs.
Proof.
  apply search_loop_links_paid; [apply initial_search_inv |].
  intros n p Hp. cbn [initial came_from] in Hp. rewrite lookup_empty in Hp.
  discriminate.
Qed.

End Paid.

(** X11: in an arithmetic where addition is monotone, when the search
    returns with cost [v] recorded for the target, the path that
    [reconstruct_path] returns can be walked step by step from the start,
    and the sum of its step costs is at most [v]. *)
Theorem recorded_cost_bounds_path_cost {A : Arith} {L : ArithLaws A}
    (grid : Grid) (start target : coord) (fuel : nat)
    (cf : gmap coord coord) (cs : gmap coord num) (v : num) :
  nadd_mono_left A ->
  find_fastest_path fuel grid start target = Some (Ok (cf, cs)) ->
  cs !! target = Some v ->
  exists k path w,
    (forall fuel', (k < fuel')%nat ->
                   reconstruct_path fuel' cf start target = Some (Ok path))
    /\ walk_cost grid (nofZ 0) start (tail path) = Ok w
    /\ nle w v.
Proof.
  intros Hadd Hrun Hv.
  destruct (find_fastest_path_Ok_inv grid start target fuel cf cs Hrun)
    as [Hinv _].
  pose proof (find_fastest_path_links_paid Hadd grid start target fuel cf cs Hrun)
    as Hpaid.
  destruct (tree_reach _ _ _ Hinv target v Hv) as [k Hk].
  destruct (chain_walk_cost Hadd grid start cf cs k Hinv Hpaid target v Hk Hv)
    as (w & Hw & Hle).
  exists k, (rev (trail cf k target)), w.
  split; [| now split].
  intros fuel' Hfuel. unfold reconstruct_path.
  rewrite (reconstruct_loop_chain cf start k target [] fuel' Hk);
    [reflexivity | | exact Hfuel].
  now apply (tree_chain_first start cf cs).
Qed.

Section PaidWitness.
#[local] Existing Instance real_arith.

Lemma recorded_cost_bounds_path_cost_witness :
  exists (cf : gmap coord coord) (cs : gmap coord R) (v w : R) (k : nat)
         (path : list coord),
    find_fastest_path (ample (0, 0)) real_flat (0, 0) (2, 2) = Some (Ok (cf, cs))
    /\ cs !! ((2, 2) : coord) = Some v
    /\ reconstruct_path (S k) cf (0, 0) (2, 2) = Some (Ok path)
    /\ walk_cost real_flat (nofZ 0) (0, 0) (tail path) = Ok w
    /\ nle w v.
Proof.
  destruct (real_flat_returns (0, 0) (2, 2) origin_in_real_flat)
    as (cf & cs & Hrun).
  assert (Htarget : is_Some (cs !! ((2, 2) : coord))).
  { destruct (@find_fastest_path_Ok_inv real_arith real_laws real_flat (0, 0)
                (2, 2) (ample (0, 0)) cf cs Hrun) as [Hinv [Hsome | Hset]];
      [exact Hsome |].
    now apply (@settled_box_recorded real_arith real_flat (0, 0) cf cs). }
  destruct Htarget as [v Hv].
  destruct (@recorded_cost_bounds_path_cost real_arith real_laws real_flat
              (0, 0) (2, 2) (ample (0, 0)) cf cs v real_nadd_mono_left Hrun Hv)
    as (k & path & w & Hpath & Hw & Hle).
  exists cf, cs, v, w, k, path.
  split; [exact Hrun |]. split; [exact Hv |].
  split; [apply Hpath; lia |]. now split.
Defined.

End PaidWitness.

(** ** The only exception on a grid that covers the box *)

Section Raises.
Context {A : Arith}.
Variable grid : Grid.
Hypothesis rows_cover : GRID_SIZE <= nrows grid.
Hypothesis cols_cover : GRID_SIZE <= ncols grid.

(** An unknown terrain code in a cell of the box. *)
Lemma relax_raise_unknown_terrain (current : coord) (st : state) (d : Z * Z)
    (e : exn) :
  in_bounds grid current ->
  is_Some (cost_so_far st !! current) ->
  relax grid current st d = Raise e ->
  e = KeyError
  /\ exists i j, in_box i j = true /\ ~ 0 <= terrain (cell_at grid i j) < 3.
Proof.
  intros [Hcx Hcy] Hcur Hrelax.
  apply relax_raise in Hrelax as [Hbox Hcases].
  destruct (in_box_in_bounds grid rows_cover cols_cover _ _ Hbox) as [Hx Hy].
  cbn [fst snd] in *.
  destruct Hcases as [H | [[H _] | [H | (here & nb & Hn & _ & H)]]].
  - rewrite grid_get_in_bounds in H by assumption. discriminate.
  - rewrite H in Hcur. now destruct Hcur.
  - rewrite grid_get_in_bounds in H by assumption. discriminate.
  - rewrite grid_get_in_bounds in Hn by assumption. injection Hn as <-.
    split; [exact (calculate_cost_raise _ _ _ _ H) |].
    exists (current.1 + d.1), (current.2 + d.2). split; [exact Hbox |].
    intros Hknown.
    destruct (calculate_cost_Ok here
                (cell_at grid (current.1 + d.1) (current.2 + d.2)) grid Hknown)
      as [c Hc].
    congruence.
Qed.

Lemma iteration_raise_unknown_terrain (target : coord) (st : state) :
  heap_in_bounds grid st -> heap_recorded st ->
  match iteration grid target st with
  | Next st' => heap_in_bounds grid st' /\ heap_recorded st'
  | Done (Raise e) =>
      e = KeyError
      /\ exists i j, in_box i j = true /\ ~ 0 <= terrain (cell_at grid i j) < 3
  | Done (Ok _) => True
  end.
Proof.
  intros Hin Hrec. unfold iteration.
  destruct (heappop (open_set st)) as [[[prio current] rest] |] eqn:Hpop;
    [| exact I].
  destruct (decide (current = target)); [exact I |].
  apply heappop_Permutation in Hpop.
  unfold heap_in_bounds in Hin. unfold heap_recorded in Hrec.
  rewrite Hpop in Hin, Hrec.
  apply Forall_cons in Hin as [Hcur Hin]. apply Forall_cons in Hrec as [Hc Hrec].
  cbn [snd] in Hcur, Hc.
  set (popped := {| open_set := rest |}).
  set (P := fun s : state =>
              heap_in_bounds grid s
              /\ heap_recorded s /\ is_Some (cost_so_far s !! current)).
  assert (Hpopped : P popped) by (split; [exact Hin | now split]).
  assert (Hkeep : forall s x s', P s -> relax grid current s x = Ok s' -> P s').
  { intros s x s' [Hs1 Hs2] Hrelax. split.
    - now apply (relax_heap_in_bounds grid rows_cover cols_cover current s s' x).
    - now apply (relax_heap_recorded grid current s s' x). }
  destruct (for_each (relax grid current) directions popped) as [st' | e] eqn:Hfor.
  - destruct (for_each_Ok_ind P _ _ Hkeep _ _ Hpopped Hfor) as (H1 & H2 & _).
    now split.
  - destruct (for_each_Raise_inv P _ _ _ Hkeep _ Hpopped Hfor)
      as (s & x & (_ & _ & Hs) & Hraise).
    now apply (relax_raise_unknown_terrain current s x e).
Qed.

Lemma search_loop_raise_unknown_terrain (target : coord) (fuel : nat) :
  forall st e,
    heap_in_bounds grid st -> heap_recorded st ->
    search_loop fuel grid target st = Some (Raise e) ->
    e = KeyError
    /\ exists i j, in_box i j = true /\ ~ 0 <= terrain (cell_at grid i j) < 3.
Proof.
  induction fuel as [| fuel IH]; intros st e Hin Hrec Hrun; [discriminate |].
  rewrite search_loop_S in Hrun.
  pose proof (iteration_raise_unknown_terrain target st Hin Hrec) as Hit.
  destruct (iteration grid target st) as [st' | [a | e']].
  - destruct Hit as [Hin' Hrec']. now apply (IH st').
  - discriminate.
  - injection Hrun as <-. exact Hit.
Qed.

End Raises.

(** X12: on a grid with at least [GRID_SIZE] rows and columns and from an
    in-bounds start, the only exception the search can raise is [KeyError],
    and it raises it only if some cell of the box has a terrain code that is
    none of 0, 1, 2. *)
Theorem search_raises_only_KeyError {A : Arith} (grid : Grid)
    (start target : coord) (fuel : nat) (e : exn) :
  GRID_SIZE <= nrows grid -> GRID_SIZE <= ncols grid ->
  in_bounds grid start ->
  find_fastest_path fuel grid start target = Some (Raise e) ->
  e = KeyError
  /\ exists i j, in_box i j = true /\ ~ 0 <= terrain (cell_at grid i j) < 3.
Proof.
  intros Hrows Hcols Hstart Hrun.
  apply (search_loop_raise_unknown_terrain grid Hrows Hcols target fuel
           (initial start) e); [| | exact Hrun].
  - unfold heap_in_bounds, initial, heappush. cbn [open_set].
    constructor; [exact Hstart | constructor].
  - unfold heap_recorded, initial, heappush. cbn [open_set cost_so_far].
    constructor; [| constructor]. cbn [snd]. rewrite lookup_singleton_eq. eauto.
Qed.

Lemma search_raises_only_KeyError_witness :
  exists i j,
    in_box i j = true
    /\ ~ 0 <= terrain (cell_at (@uniform_grid float_arith 100 100 7 (float_ofZ 0)) i j) < 3.
Proof.
  assert (Hrun : @find_fastest_path float_arith 5
                   (@uniform_grid float_arith 100 100 7 (float_ofZ 0))
                   (0, 0) (2, 2) = Some (Raise KeyError))
    by (vm_compute; reflexivity).
  refine (proj2 (@search_raises_only_KeyError float_arith
                   (@uniform_grid float_arith 100 100 7 (float_ofZ 0))
                   (0, 0) (2, 2) 5 KeyError _ _ _ Hrun)).
  - unfold GRID_SIZE. simpl. lia.
  - unfold GRID_SIZE. simpl. lia.
  - unfold in_bounds. simpl. lia.
Defined.
